(** * httprobe: a model of [main.go] and the properties of its pipeline

    The program reads host names, probes each of them over HTTPS and HTTP
    with two pools of workers connected by unbuffered channels, and prints
    one line per answer.  This file embeds

    - the functions of Go's [strings] and [fmt] packages that [main.go]
      calls ([GoStrings]),
    - [extractTitle], [formatOutput] and [probeURL] as functions
      ([Probe]),
    - the feeder loop of [main] as the list of channel sends it performs
      ([Feeder]),
    - the goroutines of [main] as a transition system over the three
      channels and the two wait groups ([Pipeline]),

    and then proves the properties of the specification about them. *)

From Stdlib Require Import ZArith Ascii DecimalString DecimalPos DecimalZ.
From stdpp Require Import list strings functions relations.

Local Open Scope Z_scope.

(** ** Go strings

    A Go [string] is a sequence of bytes.  Literals are written between
    double quotes in [go_scope]. *)

Definition gostring := list ascii.

Module Literal.
Inductive lit := LNil | LCons (c : ascii) (l : lit).

Fixpoint parse (l : list Byte.byte) : lit :=
  match l with
  | [] => LNil
  | b :: l => LCons (ascii_of_byte b) (parse l)
  end.

Fixpoint print (l : lit) : list Byte.byte :=
  match l with
  | LNil => []
  | LCons c l => byte_of_ascii c :: print l
  end.
End Literal.

Declare Scope go_scope.
Delimit Scope go_scope with go.
Bind Scope go_scope with gostring.
#[warnings="-via-type-remapping,-via-type-mismatch"]
String Notation gostring Literal.parse Literal.print
  (via Literal.lit mapping [[nil] => Literal.LNil, [cons] => Literal.LCons])
  : go_scope.
Local Open Scope go_scope.

(** The line feed, which a literal cannot hold. *)
Definition LF : ascii := "010"%char.

(** ** The [strings] and [fmt] functions used by [main.go] *)

Module GoStrings.

Definition code (c : ascii) : Z := Z.of_N (N_of_ascii c).

(** [utf8.RuneSelf = 0x80]: bytes below it are single-byte runes. *)
Definition RuneSelf : Z := 128.

Definition isASCII (s : gostring) : bool :=
  forallb (λ c, code c <? RuneSelf) s.

(** [asciiSpace]: tab, line feed, vertical tab, form feed, carriage
    return and space. *)
Definition asciiSpace (c : ascii) : bool :=
  let n := code c in
  ((9 <=? n) && (n <=? 13)) || (n =? 32).

(** The slow paths of [strings.ToLower], [strings.Fields] and
    [strings.TrimSpace] on strings with a byte outside ASCII go through
    the Unicode tables of the Go runtime.  The tables are not part of
    the repository: the functions that consult them are taken as a
    parameter.
    - [MapToLower s]      is [strings.Map(unicode.ToLower, s)],
    - [FieldsSpace s]     is [strings.FieldsFunc(s, unicode.IsSpace)],
    - [TrimFuncSpace s]   is [strings.TrimFunc(s, unicode.IsSpace)],
    - [TrimRightSpace s]  is [strings.TrimRightFunc(s, unicode.IsSpace)]. *)
Record Unicode := {
  MapToLower : gostring → gostring;
  FieldsSpace : gostring → list gostring;
  TrimFuncSpace : gostring → gostring;
  TrimRightSpace : gostring → gostring
}.

(** *** [strings.ToLower] *)

Definition lowerByte (c : ascii) : ascii :=
  let n := code c in
  if (65 <=? n) && (n <=? 90)
  then ascii_of_N (Z.to_N (n + 32))
  else c.

Definition ToLower (U : Unicode) (s : gostring) : gostring :=
  if isASCII s then map lowerByte s else MapToLower U s.

(** *** [strings.Index]: the first position of [substr] in [s], or -1 *)

Fixpoint HasPrefix (s prefix : gostring) {struct prefix} : bool :=
  match prefix, s with
  | [], _ => true
  | _ :: _, [] => false
  | p :: prefix', c :: s' =>
      if Ascii.eqb p c then HasPrefix s' prefix' else false
  end.

Fixpoint find (substr s : gostring) : option nat :=
  if HasPrefix s substr then Some 0%nat
  else match s with
       | [] => None
       | _ :: s' => S <$> find substr s'
       end.

Definition Index (s substr : gostring) : Z :=
  match find substr s with
  | Some i => Z.of_nat i
  | None => -1
  end.

(** *** Slice expressions [s[lo:hi]] and [s[lo:]]

    A slice expression with [0 <= lo <= hi <= len(s)] violated is a
    run-time panic, which is [None] here. *)

Definition len (s : gostring) : Z := Z.of_nat (length s).

Definition slice (s : gostring) (lo hi : Z) : option gostring :=
  if (0 <=? lo) && (lo <=? hi) && (hi <=? len s)
  then Some (take (Z.to_nat (hi - lo)) (drop (Z.to_nat lo) s))
  else None.

Definition slice_from (s : gostring) (lo : Z) : option gostring :=
  slice s lo (len s).

(** *** [strings.TrimSpace]

    Both loops of the fast path stop at the first byte that is not an
    ASCII space; when that byte is not ASCII the rest of the work is
    handed to the Unicode-aware functions. *)

Inductive scan :=
  | Stop (rest : gostring)
  | NonASCII (rest : gostring).

Fixpoint skipSpaces (s : gostring) : scan :=
  match s with
  | [] => Stop []
  | c :: s' =>
      if RuneSelf <=? code c then NonASCII s
      else if asciiSpace c then skipSpaces s'
      else Stop s
  end.

Definition TrimSpace (U : Unicode) (s : gostring) : gostring :=
  match skipSpaces s with
  | NonASCII r => TrimFuncSpace U r
  | Stop r =>
      match skipSpaces (reverse r) with
      | NonASCII r' => TrimRightSpace U (reverse r')
      | Stop r' => reverse r'
      end
  end.

(** *** [strings.Fields] *)

Definition addField (w : gostring) (fs : list gostring) : list gostring :=
  match w with
  | [] => fs
  | _ :: _ => w :: fs
  end.

(** [fieldsFrom s] is the field that starts at the head of [s] (empty
    when [s] starts with a space) and the fields after it. *)
Fixpoint fieldsFrom (s : gostring) : gostring * list gostring :=
  match s with
  | [] => ([], [])
  | c :: s' =>
      let '(w, fs) := fieldsFrom s' in
      if asciiSpace c then ([], addField w fs) else (c :: w, fs)
  end.

Definition fieldsASCII (s : gostring) : list gostring :=
  let '(w, fs) := fieldsFrom s in addField w fs.

Definition Fields (U : Unicode) (s : gostring) : list gostring :=
  if isASCII s then fieldsASCII s else FieldsSpace U s.

(** *** [strings.Join] *)

Fixpoint Join (elems : list gostring) (sep : gostring) : gostring :=
  match elems with
  | [] => []
  | [e] => e
  | e :: es => e ++ sep ++ Join es sep
  end.

(** *** [strings.SplitN(s, sep, n)] for a separator that is not empty

    At most [n] pieces; the last one is the unsplit remainder.  The
    only call of [main.go] passes [":"] and [2]. *)

Fixpoint splitLoop (pieces : nat) (s sep : gostring) : list gostring :=
  match pieces with
  | O => [s]
  | S k =>
      match find sep s with
      | None => [s]
      | Some m => take m s :: splitLoop k (drop (m + length sep) s) sep
      end
  end.

Definition SplitN (s sep : gostring) (n : nat) : list gostring :=
  match n with
  | O => []
  | S k => splitLoop k s sep
  end.

(** *** [fmt.Sprintf] with the verbs [%d] and [%s] *)

Definition itoa (n : Z) : gostring :=
  String.list_ascii_of_string (NilZero.string_of_int (Z.to_int n)).

End GoStrings.

Import GoStrings.

(** ** The probe executor: [probeResult], [probeURL], [extractTitle],
    [formatOutput] *)

Module Probe.

Record probeResult := {
  success : bool;
  status : Z;
  server : gostring;
  title : gostring
}.

(** [probeResult{}], the zero value. *)
Definition zeroResult : probeResult :=
  {| success := false; status := 0; server := ""; title := "" |}.

(** *** The HTTP client capability

    [http.NewRequest] and [client.Do] belong to Go's [net/http]; the
    network decides what they answer.  A [Client] is one such answer:
    whether the request can be built from a method and a URL, and the
    response (or the error, [None]) of the exchange.  A response body
    is the bytes the server delivers and whether the stream then ends
    with a read error instead of the end of the data. *)

Record request := {
  Method : gostring;
  URL : gostring;
  Header : list (gostring * gostring);
  Close : bool
}.

Record response := {
  StatusCode : Z;
  HeaderGet : gostring → gostring;
  Body : gostring;
  BodyFails : bool
}.

Record Client := {
  NewRequestOk : gostring → gostring → bool;
  Do : request → option response
}.

(** [ioutil.ReadAll(io.LimitReader(resp.Body, n))]: the first [n] bytes
    when the body has that many, else the whole body, or the read
    error ([None]). *)
Definition readAllLimited (resp : response) (n : nat) : option gostring :=
  if (n <=? length (Body resp))%nat then Some (take n (Body resp))
  else if BodyFails resp then None
  else Some (Body resp).

Section WithUnicode.
Variable U : Unicode.

(** [None] is the panic of an out-of-range slice expression. *)
Definition extractTitle (body : gostring) : option gostring :=
  let lower := ToLower U body in
  let start := Index lower "<title>" in
  if start =? -1 then Some ""
  else
    let start := start + 7 in
    rest ← slice_from lower start;
    let end_ := Index rest "</title>" in
    if end_ =? -1 then Some ""
    else
      span ← slice body start (start + end_);
      let title := TrimSpace U span in
      let title := Join (Fields U title) " " in
      Some title.

(** [None] is a panic inside [extractTitle]. *)
Definition probeURL (client : Client) (url method userAgent : gostring)
    (needBody : bool) : option probeResult :=
  let result := zeroResult in
  if negb (NewRequestOk client method url) then Some result
  else
    let req := {| Method := method; URL := url;
                  Header := [("User-Agent", userAgent);
                             ("Connection", "close")];
                  Close := true |} in
    match Do client req with
    | None => Some result
    | Some resp =>
        let result := {| success := true;
                         status := StatusCode resp;
                         server := HeaderGet resp "Server";
                         title := title result |} in
        if needBody then
          match readAllLimited resp 4096 with
          | Some body =>
              t ← extractTitle body;
              Some {| success := success result;
                      status := status result;
                      server := server result;
                      title := t |}
          | None => Some result
          end
        else Some result
    end.
End WithUnicode.

Definition formatOutput (url : gostring) (r : probeResult)
    (showStatus showServer showTitle : bool) : gostring :=
  let out := url in
  let out :=
    if showStatus then out ++ " [" ++ itoa (status r) ++ "]" else out in
  let out :=
    if showServer then
      let server := server r in
      let server := if bool_decide (server = "") then "-" else server in
      out ++ " [" ++ server ++ "]"
    else out in
  let out :=
    if showTitle then
      let title := title r in
      let title := if bool_decide (title = "") then "-" else title in
      out ++ " [" ++ title ++ "]"
    else out in
  out.

End Probe.

Import Probe.

(** ** The flags and the feeder loop of [main] *)

Record config := {
  concurrency : Z;
  probes : list gostring;
  skipDefault : bool;
  preferHTTPS : bool;
  method : gostring;
  userAgent : gostring;
  showStatus : bool;
  showServer : bool;
  showTitle : bool
}.

(** The three channels of [main]. *)
Inductive chan := httpsURLs | httpURLs | output.

Global Instance chan_eq_dec : EqDecision chan.
Proof. solve_decision. Defined.

(** A send statement [ch <- v]. *)
Definition send : Type := chan * gostring.

Module Feeder.

Definition xlarge : list gostring :=
  ["81"; "300"; "591"; "593"; "832"; "981"; "1010"; "1311"; "2082";
   "2087"; "2095"; "2096"; "2480"; "3000"; "3128"; "3333"; "4243";
   "4567"; "4711"; "4712"; "4993"; "5000"; "5104"; "5108"; "5800";
   "6543"; "7000"; "7396"; "7474"; "8000"; "8001"; "8008"; "8014";
   "8042"; "8069"; "8080"; "8081"; "8088"; "8090"; "8091"; "8118";
   "8123"; "8172"; "8222"; "8243"; "8280"; "8281"; "8333"; "8443";
   "8500"; "8834"; "8880"; "8888"; "8983"; "9000"; "9043"; "9060";
   "9080"; "9090"; "9091"; "9200"; "9443"; "9800"; "9981"; "12443";
   "16080"; "18091"; "18092"; "20720"; "28017"].

Definition large : list gostring :=
  ["81"; "591"; "2082"; "2087"; "2095"; "2096"; "3000"; "8000"; "8001";
   "8008"; "8080"; "8083"; "8443"; "8834"; "8888"].

Definition small : list gostring :=
  ["7000"; "7001"; "8000"; "8001"; "8008"; "8080"; "8083"; "8443";
   "8834"; "8888"; "10000"].

(** [fmt.Sprintf("%s:%s", domain, port)] *)
Definition hostPort (domain port : gostring) : gostring :=
  domain ++ ":" ++ port.

Section WithUnicode.
Variable U : Unicode.

(** The sends of one round of [for _, p := range probes]. *)
Definition feedProbe (domain p : gostring) : list send :=
  if bool_decide (p = "xlarge") then
    map (λ port, (httpsURLs, hostPort domain port)) xlarge
  else if bool_decide (p = "large") then
    map (λ port, (httpsURLs, hostPort domain port)) large
  else if bool_decide (p = "small") then
    map (λ port, (httpsURLs, hostPort domain port)) small
  else
    match SplitN p ":" 2 with
    | [scheme; port] =>
        if bool_decide (ToLower U scheme = "https")
        then [(httpsURLs, hostPort domain port)]
        else [(httpURLs, hostPort domain port)]
    | _ => []
    end.

(** The sends of one round of [for sc.Scan()], for the line
    [sc.Text()]. *)
Definition feedLine (cfg : config) (line : gostring) : list send :=
  let domain := ToLower U line in
  (if skipDefault cfg then [] else [(httpsURLs, domain)])
  ++ concat (map (feedProbe domain) (probes cfg)).

(** All the sends of the feeder, for the lines the scanner yields. *)
Definition feed (cfg : config) (lines : list gostring) : list send :=
  concat (map (feedLine cfg) lines).
End WithUnicode.

End Feeder.

Import Feeder.


(** ** The goroutines of [main] as a transition system

    After [main] has started its goroutines it runs the feeder loop,
    closes [httpsURLs] and waits for the output goroutine.  The other
    goroutines are the workers of the two pools, the two goroutines that
    close [httpURLs] and [output] once a wait group reaches zero, and the
    output goroutine.  A state records the program point of each
    goroutine, the wait-group counters and which channels are closed;
    a step is one goroutine advancing, or a sender and a receiver
    meeting on a channel (the channels are unbuffered).  The rate limiter
    only delays a worker and has no step of its own. *)

Module Pipeline.

Inductive pool := HTTPSPool | HTTPPool.

Global Instance pool_eq_dec : EqDecision pool.
Proof. solve_decision. Defined.

(** The channel a pool ranges over and the scheme it probes with. *)
Definition input (p : pool) : chan :=
  match p with HTTPSPool => httpsURLs | HTTPPool => httpURLs end.

Definition scheme (p : pool) : gostring :=
  match p with HTTPSPool => "https://" | HTTPPool => "http://" end.

(** [for i := 0; i < bound; i++ { wg.Add(1); go func() {...}() }]:
    the number of goroutines started, by a loop with fuel. *)
Fixpoint started (fuel : nat) (i bound : Z) : nat :=
  match fuel with
  | O => O
  | S fuel' =>
      if i <? bound then S (started fuel' (i + 1) bound) else O
  end.

(** Go's [/] on [int] truncates toward zero: [Z.quot]. *)
Definition poolSize (cfg : config) : nat :=
  started (Z.abs_nat (concurrency cfg)) 0 (concurrency cfg ÷ 2).

(** The sends that remain in the body of a worker's loop once
    [probeURL] has returned [result] for the submission [u]. *)
Definition afterProbe (cfg : config) (p : pool) (u : gostring)
    (result : probeResult) : list send :=
  let withProto := scheme p ++ u in
  let line := formatOutput withProto result
                (showStatus cfg) (showServer cfg) (showTitle cfg) in
  match p with
  | HTTPSPool =>
      if success result then
        (output, line) :: (if preferHTTPS cfg then [] else [(httpURLs, u)])
      else [(httpURLs, u)]
  | HTTPPool =>
      if success result then [(output, line)] else []
  end.

(** Program points of a worker. *)
Inductive worker :=
  | Receive                                (* at [for u := range ch] *)
  | Probing (u : gostring)                 (* before [probeURL] *)
  | Sending (s : send) (rest : list send)  (* at [ch <- v] *)
  | Exiting                                (* before [wg.Done()] *)
  | Done.

Definition continue (todo : list send) : worker :=
  match todo with
  | [] => Receive
  | s :: rest => Sending s rest
  end.

(** Program points of [main] after the goroutines are started. *)
Inductive mainPoint := Feeding | Waiting | Returned.

Inductive panic := SendOnClosedChannel | SliceOutOfRange.

Record state := {
  feeder : list send;        (* sends the feeder loop has yet to do *)
  mainAt : mainPoint;
  workers : pool → list worker;
  wg : pool → nat;           (* httpsWG and httpWG *)
  closed : chan → bool;
  outputDone : bool;         (* the output goroutine called outputWG.Done *)
  printed : list gostring;   (* standard output *)
  probed : list gostring;    (* the URLs given to probeURL so far *)
  crashed : option panic
}.

Definition setFeeder v s :=
  {| feeder := v; mainAt := mainAt s; workers := workers s; wg := wg s;
     closed := closed s; outputDone := outputDone s; printed := printed s;
     probed := probed s; crashed := crashed s |}.
Definition setMainAt v s :=
  {| feeder := feeder s; mainAt := v; workers := workers s; wg := wg s;
     closed := closed s; outputDone := outputDone s; printed := printed s;
     probed := probed s; crashed := crashed s |}.
Definition setWorkers v s :=
  {| feeder := feeder s; mainAt := mainAt s; workers := v; wg := wg s;
     closed := closed s; outputDone := outputDone s; printed := printed s;
     probed := probed s; crashed := crashed s |}.
Definition setWg v s :=
  {| feeder := feeder s; mainAt := mainAt s; workers := workers s; wg := v;
     closed := closed s; outputDone := outputDone s; printed := printed s;
     probed := probed s; crashed := crashed s |}.
Definition setClosed v s :=
  {| feeder := feeder s; mainAt := mainAt s; workers := workers s;
     wg := wg s; closed := v; outputDone := outputDone s;
     printed := printed s; probed := probed s; crashed := crashed s |}.
Definition setOutputDone v s :=
  {| feeder := feeder s; mainAt := mainAt s; workers := workers s;
     wg := wg s; closed := closed s; outputDone := v; printed := printed s;
     probed := probed s; crashed := crashed s |}.
Definition setPrinted v s :=
  {| feeder := feeder s; mainAt := mainAt s; workers := workers s;
     wg := wg s; closed := closed s; outputDone := outputDone s;
     printed := v; probed := probed s; crashed := crashed s |}.
Definition setProbed v s :=
  {| feeder := feeder s; mainAt := mainAt s; workers := workers s;
     wg := wg s; closed := closed s; outputDone := outputDone s;
     printed := printed s; probed := v; crashed := crashed s |}.
Definition setCrashed v s :=
  {| feeder := feeder s; mainAt := mainAt s; workers := workers s;
     wg := wg s; closed := closed s; outputDone := outputDone s;
     printed := printed s; probed := probed s; crashed := v |}.

(** Worker [i] of pool [p] moves to the program point [w]. *)
Definition setWorker (p : pool) (i : nat) (w : worker) (s : state) : state :=
  setWorkers (<[p := <[i := w]> (workers s p)]> (workers s)) s.

Definition close (ch : chan) (s : state) : state :=
  setClosed (<[ch := true]> (closed s)) s.

Section WithConfig.
Variable U : Unicode.
Variable cfg : config.

Definition init (lines : list gostring) : state :=
  {| feeder := feed U cfg lines;
     mainAt := Feeding;
     workers := λ _, replicate (poolSize cfg) Receive;
     wg := λ _, poolSize cfg;
     closed := λ _, false;
     outputDone := false;
     printed := [];
     probed := [];
     crashed := None |}.

(** [sends s (ch, v) s']: a goroutine of [s] is at the statement
    [ch <- v], and is past it in [s']. *)
Inductive sends : state → send → state → Prop :=
  | main_sends s m rest :
      mainAt s = Feeding →
      feeder s = m :: rest →
      sends s m (setFeeder rest s)
  | worker_sends s p i m rest :
      workers s p !! i = Some (Sending m rest) →
      sends s m (setWorker p i (continue rest) s).

(** [receives s ch v s']: a goroutine of [s] is ready to receive on
    [ch], and has received [v] in [s'].  The output goroutine prints
    what it receives. *)
Inductive receives : state → chan → gostring → state → Prop :=
  | worker_receives s p i u :
      workers s p !! i = Some Receive →
      receives s (input p) u (setWorker p i (Probing u) s)
  | output_receives s o :
      outputDone s = false →
      receives s output o (setPrinted (printed s ++ [o]) s).

Inductive action : state → state → Prop :=
  (* a send and a receive meet on an open channel *)
  | act_rendezvous s ch v s1 s2 :
      closed s ch = false →
      sends s (ch, v) s1 →
      receives s1 ch v s2 →
      action s s2
  (* a send on a closed channel panics *)
  | act_send_closed s ch v s1 :
      closed s ch = true →
      sends s (ch, v) s1 →
      action s (setCrashed (Some SendOnClosedChannel) s)
  (* [result := probeURL(client, withProto, method, userAgent, showTitle)] *)
  | act_probe s p i u client result :
      workers s p !! i = Some (Probing u) →
      probeURL U client (scheme p ++ u) (method cfg) (userAgent cfg)
               (showTitle cfg) = Some result →
      action s (setProbed (probed s ++ [scheme p ++ u])
                  (setWorker p i (continue (afterProbe cfg p u result)) s))
  | act_probe_panic s p i u client :
      workers s p !! i = Some (Probing u) →
      probeURL U client (scheme p ++ u) (method cfg) (userAgent cfg)
               (showTitle cfg) = None →
      action s (setCrashed (Some SliceOutOfRange)
                  (setProbed (probed s ++ [scheme p ++ u]) s))
  (* the [range] loop of a worker ends when its channel is closed *)
  | act_range_end s p i :
      workers s p !! i = Some Receive →
      closed s (input p) = true →
      action s (setWorker p i Exiting s)
  (* [httpsWG.Done()], [httpWG.Done()] *)
  | act_done s p i :
      workers s p !! i = Some Exiting →
      action s (setWg (<[p := pred (wg s p)]> (wg s)) (setWorker p i Done s))
  (* [httpsWG.Wait(); close(httpURLs)] *)
  | act_close_http s :
      wg s HTTPSPool = O →
      closed s httpURLs = false →
      action s (close httpURLs s)
  (* [httpWG.Wait(); close(output)] *)
  | act_close_output s :
      wg s HTTPPool = O →
      closed s output = false →
      action s (close output s)
  (* the [range] loop of the output goroutine ends; [outputWG.Done()] *)
  | act_output_done s :
      closed s output = true →
      outputDone s = false →
      action s (setOutputDone true s)
  (* the feeder loop is over: [close(httpsURLs)] *)
  | act_close_https s :
      mainAt s = Feeding →
      feeder s = [] →
      action s (setMainAt Waiting (close httpsURLs s))
  (* [outputWG.Wait()] returns and so does [main] *)
  | act_return s :
      mainAt s = Waiting →
      outputDone s = true →
      action s (setMainAt Returned s).

(** A process that has panicked or whose [main] has returned takes
    no further step. *)
Definition step (s s' : state) : Prop :=
  crashed s = None ∧ mainAt s ≠ Returned ∧ action s s'.

Definition reachable (lines : list gostring) (s : state) : Prop :=
  rtc step (init lines) s.
End WithConfig.

End Pipeline.

Import Pipeline.

(** ** Vocabulary of the statements *)

(** A Unicode capability for the examples.  Their inputs are ASCII, where
    it is never consulted. *)
Definition noUnicode : Unicode :=
  {| MapToLower := id; FieldsSpace := λ s, [s];
     TrimFuncSpace := id; TrimRightSpace := id |}.

(** [p] occurs in [s] at position [j]. *)
Definition occursAt (p s : gostring) (j : nat) : Prop :=
  HasPrefix (drop j s) p = true.

(** Trimming and collapsing the white space of an ASCII string. *)
Definition collapse (s : gostring) : gostring := Join (fieldsASCII s) " ".

(** The bytes of a field are not white space, and a field is not empty. *)
Definition wordChars (w : gostring) : Prop :=
  Forall (λ c, asciiSpace c = false) w.

Definition spaces (w : gostring) : Prop :=
  Forall (λ c, asciiSpace c = true) w.

Definition goodField (f : gostring) : Prop := f ≠ [] ∧ wordChars f.

(** The string is empty or starts with white space. *)
Definition startsSpace (r : gostring) : Prop :=
  match r with
  | [] => True
  | c :: _ => asciiSpace c = true
  end.

(** What [Join] appends after the first element. *)
Definition sepJoin (fs : list gostring) : gostring :=
  match fs with
  | [] => []
  | _ :: _ => " " ++ Join fs " "
  end.

(** The normal form of a title in the words of the specification: the
    leading and the trailing white space is trimmed, and every run of
    white space that is left becomes one space. *)
Fixpoint trimLeft (s : gostring) : gostring :=
  match s with
  | [] => []
  | c :: s' => if asciiSpace c then trimLeft s' else s
  end.

Fixpoint trimRight (s : gostring) : gostring :=
  match s with
  | [] => []
  | c :: s' =>
      match trimRight s' with
      | [] => if asciiSpace c then [] else [c]
      | t => c :: t
      end
  end.

Fixpoint squeeze (s : gostring) : gostring :=
  match s with
  | [] => []
  | c :: s' =>
      if asciiSpace c then
        match s' with
        | [] => " "
        | d :: _ => if asciiSpace d then squeeze s' else " "%char :: squeeze s'
        end
      else c :: squeeze s'
  end.

Definition trimCollapse (s : gostring) : gostring :=
  squeeze (trimRight (trimLeft s)).

(** Lower-casing in the words of the specification: each of the letters
    [A] to [Z] becomes the letter of [a] to [z] at the same place of the
    alphabet, and every other byte is kept. *)
Fixpoint replaceLetter (from to : gostring) (c : ascii) : ascii :=
  match from, to with
  | f :: from', t :: to' =>
      if Ascii.eqb c f then t else replaceLetter from' to' c
  | _, _ => c
  end.

Definition lowerCased (line : gostring) : gostring :=
  map (replaceLetter "ABCDEFGHIJKLMNOPQRSTUVWXYZ"
                     "abcdefghijklmnopqrstuvwxyz") line.

(** A body with a byte that is not valid UTF-8.  The byte FF occurs in
    no UTF-8 encoding; [strings.Map], which [strings.ToLower] calls on
    a string with a byte outside ASCII, reads it as [utf8.RuneError]
    and writes the three bytes EF BF BD of U+FFFD in its place.
    [replacingFF] is the Unicode capability on strings whose bytes are
    ASCII or FF. *)
Definition xFF : ascii := "255"%char.

Definition runeError : gostring := ["239"%char; "191"%char; "189"%char].

Definition mapToLowerFF (s : gostring) : gostring :=
  flat_map (λ c, if code c =? 255 then runeError else [lowerByte c]) s.

Definition replacingFF : Unicode :=
  {| MapToLower := mapToLowerFF; FieldsSpace := λ s, [s];
     TrimFuncSpace := id; TrimRightSpace := id |}.



(** The flags of [httprobe -status -server -title]. *)
Definition showAll : config :=
  {| concurrency := 20; probes := []; skipDefault := false;
     preferHTTPS := false; method := "GET"; userAgent := "httprobe";
     showStatus := true; showServer := true; showTitle := true |}.

(** The flags [-c concurrency -p probe ... (-s)], the others at their
    defaults. *)
Definition flags (c : Z) (ps : list gostring) (s : bool) : config :=
  {| concurrency := c; probes := ps; skipDefault := s;
     preferHTTPS := false; method := "GET"; userAgent := "httprobe";
     showStatus := false; showServer := false; showTitle := false |}.

(** The number of separators in an extra-probe token. *)
Definition separators (p : gostring) : nat :=
  length (filter (λ c, c = ":"%char) p).

(** The named port sets of the [-p] flag. *)
Definition namedSet (p : gostring) : Prop :=
  p = "xlarge" ∨ p = "large" ∨ p = "small".

Global Instance worker_eq_dec : EqDecision worker.
Proof. solve_decision. Defined.

(** The workers of a pool that have not called [Done] on its wait
    group. *)
Definition alive (ws : list worker) : nat :=
  length (filter (λ w, w ≠ Done) ws).

(** The channels a worker of a pool sends on. *)
Definition downstream (p : pool) (ch : chan) : Prop :=
  match p, ch with
  | HTTPSPool, (output | httpURLs) => True
  | HTTPPool, output => True
  | _, _ => False
  end.

(** What holds in every state of a run with [n] workers per pool: the
    wait groups count the workers that are not done, a worker leaves its
    loop only after its channel was closed, and [httpURLs] and [output]
    are closed only after the wait group before them reached zero. *)
Record invariant (n : nat) (s : state) : Prop := {
  inv_size : ∀ p, length (workers s p) = n;
  inv_wg : ∀ p, wg s p = alive (workers s p);
  inv_exit : ∀ p i,
    workers s p !! i = Some Exiting ∨ workers s p !! i = Some Done →
    closed s (input p) = true;
  inv_https : closed s httpsURLs = true → mainAt s ≠ Feeding;
  inv_http : closed s httpURLs = true → wg s HTTPSPool = O;
  inv_output : closed s output = true → wg s HTTPPool = O;
  inv_feeder : ∀ m, m ∈ feeder s → m.1 ≠ output;
  inv_sending : ∀ p i m rest,
    workers s p !! i = Some (Sending m rest) →
    Forall (λ m, downstream p m.1) (m :: rest)
}.

(** Two clients for the examples: a network on which every exchange
    fails, and one on which every exchange is answered by [resp]. *)
Definition unreachable : Client :=
  {| NewRequestOk := λ _ _, true; Do := λ _, None |}.

Definition answering (resp : response) : Client :=
  {| NewRequestOk := λ _ _, true; Do := λ _, Some resp |}.

(** The request that [probeURL] hands to [client.Do]. *)
Definition probeRequest (url method userAgent : gostring) : request :=
  {| Method := method; URL := url;
     Header := [("User-Agent", userAgent); ("Connection", "close")];
     Close := true |}.

(** ** The [-p] flag: [probeArgs]

    [flag.Var(&probes, "p", ...)] makes the flag package call [Set] once
    for each [-p] of the command line, in order; [Set] appends and
    returns no error.  [String] joins the values with commas. *)

Definition probeArgs : Type := list gostring.

Definition probeArgs_Set (p : probeArgs) (val : gostring) : probeArgs :=
  p ++ [val].

Definition probeArgs_String (p : probeArgs) : gostring := Join p ",".

(** The value of [probes] after [flag.Parse] has seen [-p v] for each
    [v] of [vals]. *)
Definition parsedProbes (vals : list gostring) : probeArgs :=
  foldl probeArgs_Set [] vals.

Definition withProbes (cfg : config) (ps : probeArgs) : config :=
  {| concurrency := concurrency cfg; probes := ps;
     skipDefault := skipDefault cfg; preferHTTPS := preferHTTPS cfg;
     method := method cfg; userAgent := userAgent cfg;
     showStatus := showStatus cfg; showServer := showServer cfg;
     showTitle := showTitle cfg |}.

(** ** The life of [main] and of the output goroutine

    [httpsURLs] is closed exactly when the feeder loop is over, the
    output goroutine ends only on a closed [output], and [main] returns
    only after it. *)
Record lifecycle (s : state) : Prop := {
  life_fed : mainAt s ≠ Feeding →
             closed s httpsURLs = true ∧ feeder s = [];
  life_output : outputDone s = true → closed s output = true;
  life_return : mainAt s = Returned → outputDone s = true
}.

(** A worker that can take a step whatever the other goroutines do:
    it probes, calls [Done], finds its channel closed, sends on a
    closed channel (and panics) or sends on [output]. *)
Definition ready (s : state) (p : pool) (w : worker) : bool :=
  match w with
  | Probing _ | Exiting => true
  | Receive => closed s (input p)
  | Sending (ch, _) _ => closed s ch || bool_decide (ch = output)
  | Done => false
  end.

(** ** A bound on the steps that are left

    Each statement that a goroutine has yet to execute is counted with
    what it sets off: a send on [httpsURLs] costs the receive, the
    probe, the two sends that may follow and what the send on
    [httpURLs] costs in turn. *)
Definition sendCost (m : send) : nat :=
  match m.1 with
  | httpsURLs => 6
  | httpURLs => 3
  | output => 1
  end.

Definition todoCost (todo : list send) : nat :=
  sum_list (map sendCost todo).

Definition workerCost (p : pool) (w : worker) : nat :=
  match w with
  | Receive => 2
  | Probing _ => match p with HTTPSPool => 7 | HTTPPool => 4 end
  | Sending m rest => todoCost (m :: rest) + 2
  | Exiting => 1
  | Done => 0
  end.

Definition poolCost (p : pool) (ws : list worker) : nat :=
  sum_list (map (workerCost p) ws).

Definition mainCost (s : state) : nat :=
  match mainAt s with
  | Feeding => todoCost (feeder s) + 2
  | Waiting => 1
  | Returned => 0
  end.

Definition pending (b : bool) : nat := if b then 0%nat else 1%nat.

Definition stepsLeft (s : state) : nat :=
  mainCost s
  + poolCost HTTPSPool (workers s HTTPSPool)
  + poolCost HTTPPool (workers s HTTPPool)
  + pending (closed s httpURLs) + pending (closed s output)
  + pending (outputDone s)
  + match crashed s with None => 1 | Some _ => 0 end.

(** ** Where a probe and a printed line come from *)

(** [line] is the output line of a successful probe of a URL of
    [urls]. *)
Definition printedFrom (cfg : config) (urls : list gostring)
    (line : gostring) : Prop :=
  ∃ url result,
    url ∈ urls ∧ success result = true
    ∧ line = formatOutput url result (showStatus cfg) (showServer cfg)
               (showTitle cfg).

(** The submission [u] may be held by a worker of pool [p]: the feeder
    sent it on the channel of the pool, or, for the HTTP pool, an HTTPS
    worker forwarded it after its own probe of it. *)
Definition origin (sent : list send) (urls : list gostring) (p : pool)
    (u : gostring) : Prop :=
  match p with
  | HTTPSPool => (httpsURLs, u) ∈ sent
  | HTTPPool =>
      (httpURLs, u) ∈ sent
      ∨ ((httpsURLs, u) ∈ sent ∧ "https://" ++ u ∈ urls)
  end.

(** A send that a worker of pool [p] has yet to do. *)
Definition sendFrom (cfg : config) (sent : list send)
    (urls : list gostring) (p : pool) (m : send) : Prop :=
  match m.1 with
  | output => printedFrom cfg urls m.2
  | httpURLs => p = HTTPSPool ∧ origin sent urls HTTPPool m.2
  | httpsURLs => False
  end.

Record provenance (cfg : config) (sent : list send) (s : state) : Prop := {
  prov_feeder : ∀ m, m ∈ feeder s → m ∈ sent;
  prov_probing : ∀ p i u,
    workers s p !! i = Some (Probing u) → origin sent (probed s) p u;
  prov_sending : ∀ p i m rest,
    workers s p !! i = Some (Sending m rest) →
    Forall (sendFrom cfg sent (probed s) p) (m :: rest);
  prov_probed : ∀ before url after,
    probed s = before ++ url :: after →
    ∃ p u, url = scheme p ++ u ∧ origin sent before p u;
  prov_printed : ∀ line,
    line ∈ printed s → printedFrom cfg (probed s) line
}.



(** ** The probes and the lines that are due

    What the statements still to execute can add to the probes and to
    the printed lines: a submission on [httpsURLs] is probed over HTTPS
    and, forwarded, over HTTP; one on [httpURLs] is probed once; a send
    on [output] prints one line. *)
Definition probesOf (m : send) : nat :=
  match m.1 with
  | httpsURLs => 2
  | httpURLs => 1
  | output => 0
  end.

Definition linesOf (m : send) : nat :=
  match m.1 with
  | output => 1
  | _ => 0
  end.

Definition probesDue (p : pool) (w : worker) : nat :=
  match w with
  | Probing _ => match p with HTTPSPool => 2 | HTTPPool => 1 end
  | Sending m rest => sum_list (map probesOf (m :: rest))
  | _ => 0
  end.

Definition linesDue (p : pool) (w : worker) : nat :=
  match w with
  | Sending m rest => sum_list (map linesOf (m :: rest))
  | _ => 0
  end.

Definition total (f : pool → worker → nat) (s : state) : nat :=
  sum_list (map (f HTTPSPool) (workers s HTTPSPool))
  + sum_list (map (f HTTPPool) (workers s HTTPPool)).

(** The probes made and the probes due never exceed what the feeder
    submitted; the lines printed and the lines due never exceed the
    probes made. *)
Definition counted (sent : list send) (s : state) : Prop :=
  (length (probed s) + sum_list (map probesOf (feeder s))
   + total probesDue s ≤ sum_list (map probesOf sent))%nat
  ∧ (length (printed s) + total linesDue s ≤ length (probed s))%nat.

(** The same count for one URL, [scheme q ++ u0]: what a statement
    still to execute can add to the calls of [probeURL] on it.  A
    submission [u0] on [httpsURLs] can be probed with either scheme, one
    on [httpURLs] with [http://] only. *)
Definition probesOfAt (q : pool) (u0 : gostring) (m : send) : nat :=
  match m.1, q with
  | httpsURLs, _ => if bool_decide (m.2 = u0) then 1 else 0
  | httpURLs, HTTPPool => if bool_decide (m.2 = u0) then 1 else 0
  | _, _ => 0
  end.

Definition probesDueAt (q : pool) (u0 : gostring) (p : pool) (w : worker)
    : nat :=
  match w with
  | Probing u => probesOfAt q u0 (input p, u)
  | Sending m rest => sum_list (map (probesOfAt q u0) (m :: rest))
  | _ => 0
  end.

(** The number of calls of [probeURL] on [scheme q ++ u0] so far. *)
Definition probedAt (q : pool) (u0 : gostring) (urls : list gostring) : nat :=
  length (filter (λ url, url = scheme q ++ u0) urls).

Definition countedAt (q : pool) (u0 : gostring) (sent : list send)
    (s : state) : Prop :=
  (probedAt q u0 (probed s) + sum_list (map (probesOfAt q u0) (feeder s))
   + total (probesDueAt q u0) s ≤ sum_list (map (probesOfAt q u0) sent))%nat.

(** ** The timeout

    [time.Duration(to * 1000000)]: the product is computed on [int],
    which has [bits] bits (32 or 64, by the platform), and wraps
    around. *)
Definition wrap (bits : Z) (z : Z) : Z :=
  (z + 2 ^ (bits - 1)) mod 2 ^ bits - 2 ^ (bits - 1).

Definition timeoutNanoseconds (bits : Z) (to : Z) : Z :=
  wrap bits (to * 1000000).

(** ** An example run

    [httprobe -status -server -title] on the line [example.com]: an
    HTTPS worker receives the submission, its probe is answered, and
    the output goroutine prints the line. *)

Definition exampleResponse : response :=
  {| StatusCode := 200; HeaderGet := λ _, "nginx";
     Body := "<html><title>Example Domain</title></html>";
     BodyFails := false |}.

Definition exampleLine : gostring :=
  "https://example.com [200] [nginx] [Example Domain]".

Definition received : state :=
  setWorker HTTPSPool 0 (Probing "example.com")
    (setFeeder [] (init noUnicode showAll ["example.com"])).

Definition answered : state :=
  setProbed ["https://example.com"]
    (setWorker HTTPSPool 0
       (Sending (output, exampleLine) [(httpURLs, "example.com")])
       received).

Definition printedLine : state :=
  setPrinted [exampleLine]
    (setWorker HTTPSPool 0 (Sending (httpURLs, "example.com") []) answered).

(** * Facts about the string functions *)

Section StringFacts.
Implicit Types s p w : gostring.

Lemma HasPrefix_app s p : HasPrefix s p = true ↔ ∃ k, s = p ++ k.
Proof.
  revert s. induction p as [|c p IH]; intros s; simpl.
  - split; [by exists s | done].
  - destruct s as [|d s]; simpl.
    + split; [done | by intros [k Hk]].
    + destruct (Ascii.eqb_spec c d) as [->|Hne].
      * rewrite IH. split; intros [k Hk]; exists k; congruence.
      * split; [done | intros [k Hk]; congruence].
Qed.

Lemma HasPrefix_nil s : HasPrefix [] s = true → s = [].
Proof. by destruct s. Qed.

Lemma find_Some p s i :
  find p s = Some i →
  occursAt p s i ∧ (i + length p ≤ length s)%nat
  ∧ ∀ j, (j < i)%nat → ¬ occursAt p s j.
Proof.
  unfold occursAt. revert i. induction s as [|c s IH]; intros i; simpl.
  - destruct (HasPrefix [] p) eqn:Hp; [|done].
    intros [= <-]. apply HasPrefix_nil in Hp as ->.
    split_and!; [done | simpl; lia | lia].
  - destruct (HasPrefix (c :: s) p) eqn:Hp.
    + intros [= <-]. split_and!; [done | | lia].
      apply HasPrefix_app in Hp as [k Hk].
      apply (f_equal length) in Hk. rewrite length_app in Hk.
      simpl in *. lia.
    + destruct (find p s) as [i'|] eqn:Hf; [|done].
      intros [= <-]. destruct (IH i' eq_refl) as (H1 & H2 & H3).
      split_and!; [done | simpl; lia |].
      intros [|j] Hj; simpl; [congruence | apply H3; lia].
Qed.

Lemma find_None p s j : find p s = None → ¬ occursAt p s j.
Proof.
  unfold occursAt. revert j. induction s as [|c s IH]; intros j; simpl.
  - destruct (HasPrefix [] p) eqn:Hp; [done|].
    intros _. by rewrite drop_nil, Hp.
  - destruct (HasPrefix (c :: s) p) eqn:Hp; [done|].
    destruct (find p s) eqn:Hf; [done|]. intros _.
    destruct j as [|j]; simpl; [congruence | by apply IH].
Qed.

Lemma find_first p s i :
  occursAt p s i → (∀ j, (j < i)%nat → ¬ occursAt p s j) →
  (i ≤ length s)%nat → find p s = Some i.
Proof.
  intros Hi Hfirst Hlen. destruct (find p s) as [k|] eqn:Hf.
  - apply find_Some in Hf as (Hk & _ & Hk').
    destruct (Nat.lt_trichotomy k i) as [?|[->|?]]; [|done|].
    + by destruct (Hfirst k).
    + by destruct (Hk' i).
  - by destruct (find_None p s i).
Qed.

Lemma find_absent p s : (∀ j, ¬ occursAt p s j) → find p s = None.
Proof.
  intros Hno. destruct (find p s) as [i|] eqn:Hf; [|done].
  apply find_Some in Hf as [Hi _]. by destruct (Hno i).
Qed.

Lemma occursAt_app_length pre p post : occursAt p (pre ++ p ++ post) (length pre).
Proof.
  unfold occursAt. rewrite drop_app_length. apply HasPrefix_app. by exists post.
Qed.

Lemma occursAt_length p s j :
  occursAt p s j → p ≠ [] → (j + length p ≤ length s)%nat.
Proof.
  unfold occursAt. intros [k Hk]%HasPrefix_app Hp.
  apply (f_equal length) in Hk. rewrite length_drop, length_app in Hk.
  destruct p; [done|]. simpl in *. lia.
Qed.

Lemma occursAt_drop p s i j : occursAt p (drop i s) j ↔ occursAt p s (i + j).
Proof. unfold occursAt. by rewrite drop_drop. Qed.

Lemma occursAt_take p s e j :
  occursAt p (take e s) j → p ≠ [] →
  occursAt p s j ∧ (j + length p ≤ e)%nat.
Proof.
  intros Hocc Hp. pose proof (occursAt_length _ _ _ Hocc Hp) as Hlen.
  rewrite length_take in Hlen. split; [|lia].
  unfold occursAt in *. apply HasPrefix_app in Hocc as [k Hk].
  apply HasPrefix_app. exists (k ++ drop e s).
  rewrite app_assoc, <- Hk, <- (take_drop e s) at 1.
  rewrite drop_app_le; [done | rewrite length_take; lia].
Qed.

(** *** ASCII bytes *)

Lemma lowerByte_space c : asciiSpace (lowerByte c) = asciiSpace c.
Proof. by destruct c as [[] [] [] [] [] [] [] []]. Qed.

Lemma lowerByte_below c :
  (code (lowerByte c) <? RuneSelf) = (code c <? RuneSelf).
Proof. by destruct c as [[] [] [] [] [] [] [] []]. Qed.

Lemma isASCII_app s1 s2 : isASCII (s1 ++ s2) = isASCII s1 && isASCII s2.
Proof. apply forallb_app. Qed.

Lemma isASCII_Forall s :
  isASCII s = true ↔ Forall (λ c, (code c <? RuneSelf) = true) s.
Proof.
  unfold isASCII. induction s as [|c s IH]; simpl; [by split|].
  by rewrite andb_true_iff, Forall_cons, IH.
Qed.

Lemma isASCII_take n s : isASCII s = true → isASCII (take n s) = true.
Proof. rewrite !isASCII_Forall. apply Forall_take. Qed.

Lemma isASCII_drop n s : isASCII s = true → isASCII (drop n s) = true.
Proof. rewrite !isASCII_Forall. apply Forall_drop. Qed.

Lemma isASCII_lower s : isASCII (map lowerByte s) = isASCII s.
Proof.
  induction s as [|c s IH]; [done|]. simpl.
  by rewrite lowerByte_below, IH.
Qed.

Lemma ToLower_ascii U s : isASCII s = true → ToLower U s = map lowerByte s.
Proof. unfold ToLower. by intros ->. Qed.

Lemma asciiSpace_fixed c :
  asciiSpace c = true → (code c <? RuneSelf) = true ∧ lowerByte c = c.
Proof.
  destruct c as [[] [] [] [] [] [] [] []]; intros H; vm_compute in H;
    try discriminate H; by vm_compute.
Qed.

(** White space goes through [ToLower] unchanged. *)
Lemma ToLower_spaces U s : spaces s → ToLower U s = s.
Proof.
  intros Hs. rewrite ToLower_ascii.
  - induction Hs as [|c s [_ Hc]%asciiSpace_fixed _ IH]; [done|].
    simpl. by rewrite Hc, IH.
  - apply isASCII_Forall. eapply Forall_impl; [exact Hs|].
    by intros c [? _]%asciiSpace_fixed.
Qed.

(** *** [Fields] and [Join] *)

Lemma Join_cons f fs : Join (f :: fs) " " = f ++ sepJoin fs.
Proof. destruct fs; simpl; [by rewrite app_nil_r | done]. Qed.

Lemma sepJoin_startsSpace fs : startsSpace (sepJoin fs).
Proof. by destruct fs. Qed.

Lemma addField_good w fs :
  wordChars w → Forall goodField fs → Forall goodField (addField w fs).
Proof. destruct w; [done|]. intros ??. by apply Forall_cons. Qed.

Lemma fieldsFrom_spec s w fs :
  fieldsFrom s = (w, fs) →
  wordChars w ∧ (∃ r, s = w ++ r ∧ startsSpace r) ∧ Forall goodField fs.
Proof.
  revert w fs. induction s as [|c s IH]; intros w fs; simpl.
  - intros [= <- <-]. split_and!; [by constructor | by exists [] | done].
  - destruct (fieldsFrom s) as [w' fs'].
    destruct (IH w' fs' eq_refl) as (Hw & (r & -> & Hr) & Hfs).
    destruct (asciiSpace c) eqn:Hc; intros [= <- <-].
    + split_and!; [by constructor | | by apply addField_good].
      by exists (c :: w' ++ r).
    + split_and!; [by constructor | by exists r | done].
Qed.

Lemma fieldsASCII_good s : Forall goodField (fieldsASCII s).
Proof.
  unfold fieldsASCII. destruct (fieldsFrom s) as [w fs] eqn:Hs.
  apply fieldsFrom_spec in Hs as (? & _ & ?). by apply addField_good.
Qed.

Lemma fieldsFrom_app_word f x :
  wordChars f →
  fieldsFrom (f ++ x) = (f ++ (fieldsFrom x).1, (fieldsFrom x).2).
Proof.
  induction 1 as [|c f Hc _ IH]; simpl; [by destruct (fieldsFrom x)|].
  by rewrite IH, Hc.
Qed.

Lemma fieldsFrom_space c x :
  asciiSpace c = true → fieldsFrom (c :: x) = ([], fieldsASCII x).
Proof.
  intros Hc. unfold fieldsASCII. simpl.
  destruct (fieldsFrom x). by rewrite Hc.
Qed.

Lemma fieldsFrom_sepJoin fs :
  fieldsFrom (sepJoin fs) = ([], fieldsASCII (Join fs " ")).
Proof.
  destruct fs as [|f fs]; [done|].
  change (sepJoin (f :: fs)) with (" "%char :: Join (f :: fs) " ").
  by apply fieldsFrom_space.
Qed.

Lemma fieldsASCII_Join fs :
  Forall goodField fs → fieldsASCII (Join fs " ") = fs.
Proof.
  induction 1 as [|f fs [Hne Hf] _ IH]; [done|].
  rewrite Join_cons. unfold fieldsASCII at 1.
  rewrite fieldsFrom_app_word, fieldsFrom_sepJoin, IH by done.
  simpl. rewrite app_nil_r. by destruct f.
Qed.

Lemma fieldsASCII_collapse s : fieldsASCII (collapse s) = fieldsASCII s.
Proof. apply fieldsASCII_Join, fieldsASCII_good. Qed.

Lemma collapse_idempotent s : collapse (collapse s) = collapse s.
Proof. unfold collapse at 1. by rewrite fieldsASCII_collapse. Qed.

Lemma collapse_space c s : asciiSpace c = true → collapse (c :: s) = collapse s.
Proof.
  intros Hc. unfold collapse, fieldsASCII.
  by rewrite fieldsFrom_space.
Qed.

Lemma collapse_word c s :
  asciiSpace c = false →
  collapse (c :: s)
  = c :: (fieldsFrom s).1 ++ sepJoin (fieldsFrom s).2.
Proof.
  intros Hc. unfold collapse, fieldsASCII. simpl.
  destruct (fieldsFrom s) as [w fs]. rewrite Hc. simpl addField.
  by rewrite Join_cons.
Qed.

Lemma collapse_fieldsFrom s :
  collapse s
  = match (fieldsFrom s).1 with
    | [] => Join (fieldsFrom s).2 " "
    | _ :: _ => (fieldsFrom s).1 ++ sepJoin (fieldsFrom s).2
    end.
Proof.
  unfold collapse, fieldsASCII. destruct (fieldsFrom s) as [[|c w] fs];
    [done|]. simpl addField. by rewrite Join_cons.
Qed.

(** Lower-casing commutes with collapsing. *)
Lemma fieldsFrom_lower s :
  fieldsFrom (map lowerByte s)
  = (map lowerByte (fieldsFrom s).1, map (map lowerByte) (fieldsFrom s).2).
Proof.
  induction s as [|c s IH]; [done|]. simpl. rewrite IH, lowerByte_space.
  destruct (fieldsFrom s) as [w fs]. destruct (asciiSpace c); [|done].
  by destruct w.
Qed.

Lemma Join_lower fs :
  map lowerByte (Join fs " ") = Join (map (map lowerByte) fs) " ".
Proof.
  induction fs as [|f [|f' fs] IH]; [done..|].
  change (Join (f :: f' :: fs) " ") with (f ++ " " ++ Join (f' :: fs) " ").
  rewrite !map_app, IH. done.
Qed.

Lemma collapse_lower s :
  collapse (map lowerByte s) = map lowerByte (collapse s).
Proof.
  unfold collapse, fieldsASCII. rewrite fieldsFrom_lower, Join_lower.
  destruct (fieldsFrom s) as [[|c w] fs]; done.
Qed.

(** The bytes of [collapse s] are bytes of [s] or the space. *)
Lemma Join_Forall (P : ascii → Prop) fs :
  P " "%char → Forall (Forall P) fs → Forall P (Join fs " ").
Proof.
  intros Hsp. induction 1 as [|f fs Hf _ IH]; [done|].
  rewrite Join_cons. apply Forall_app. split; [done|].
  destruct fs; [done|]. by apply Forall_cons.
Qed.

Lemma fieldsFrom_Forall (P : ascii → Prop) s :
  Forall P s →
  Forall P (fieldsFrom s).1 ∧ Forall (Forall P) (fieldsFrom s).2.
Proof.
  induction 1 as [|c s Hc _ [IH1 IH2]]; [done|]. simpl.
  destruct (fieldsFrom s) as [w fs]. simpl in *.
  destruct (asciiSpace c); simpl; [|by split; [constructor|]].
  split; [done|]. destruct w; [done|]. by constructor.
Qed.

Lemma collapse_Forall (P : ascii → Prop) s :
  P " "%char → Forall P s → Forall P (collapse s).
Proof.
  intros Hsp [H1 H2]%fieldsFrom_Forall. apply Join_Forall; [done|].
  unfold fieldsASCII. destruct (fieldsFrom s) as [[|c w] fs]; [done|].
  by constructor.
Qed.

Lemma isASCII_collapse s : isASCII s = true → isASCII (collapse s) = true.
Proof. rewrite !isASCII_Forall. by apply collapse_Forall. Qed.

(** A word that occurs in [collapse s] occurs in [s]. *)
Lemma HasPrefix_word w x p :
  wordChars p → startsSpace x →
  HasPrefix (w ++ x) p = true → HasPrefix w p = true.
Proof.
  intros Hp Hx. revert w. induction Hp as [|c p Hc _ IH]; intros w; [done|].
  destruct w as [|d w]; simpl.
  - destruct x as [|e x]; [done|]. simpl in Hx.
    destruct (Ascii.eqb_spec c e) as [->|]; [congruence | done].
  - destruct (Ascii.eqb c d); [apply IH | done].
Qed.

Lemma HasPrefix_app_l w x p :
  HasPrefix w p = true → HasPrefix (w ++ x) p = true.
Proof.
  rewrite !HasPrefix_app. intros [k ->]. exists (k ++ x).
  by rewrite app_assoc.
Qed.

Lemma collapse_occurs p s j :
  p ≠ [] → wordChars p →
  occursAt p (collapse s) j → ∃ j', occursAt p s j'.
Proof.
  intros Hne Hp. destruct p as [|q p]; [done|].
  apply Forall_cons in Hp as [Hq Hp].
  revert j. induction s as [|c s IH]; intros j.
  { unfold occursAt. change (collapse []) with (@nil ascii).
    by rewrite drop_nil. }
  destruct (asciiSpace c) eqn:Hc.
  { rewrite collapse_space by done. intros [j' Hj']%IH. by exists (S j'). }
  rewrite collapse_word by done.
  pose proof (fieldsFrom_spec s _ _ (surjective_pairing _))
    as (Hw & (r & Hs & Hr) & _).
  pose proof (collapse_fieldsFrom s) as Hcol.
  destruct (fieldsFrom s) as [w fs]; simpl in *.
  destruct j as [|j]; intros Hocc; unfold occursAt in Hocc; simpl in Hocc.
  - exists O. unfold occursAt. simpl.
    destruct (Ascii.eqb q c); [|done].
    rewrite Hs. apply HasPrefix_app_l.
    eapply HasPrefix_word; [done | apply sepJoin_startsSpace | done].
  - destruct w as [|d w].
    + simpl in Hcol. destruct fs as [|f fs].
      { simpl in Hocc. by rewrite drop_nil in Hocc. }
      change ([] ++ sepJoin (f :: fs))
        with (" "%char :: Join (f :: fs) " ") in Hocc.
      destruct j as [|j].
      { simpl in Hocc.
        destruct (Ascii.eqb_spec q " "%char) as [->|]; done. }
      rewrite skipn_cons, <- Hcol in Hocc.
      destruct (IH j Hocc) as [j' Hj']. by exists (S j').
    + rewrite <- Hcol in Hocc. destruct (IH j Hocc) as [j' Hj'].
      by exists (S j').
Qed.

(** *** [TrimSpace] on ASCII strings *)

Lemma skipSpaces_ascii s :
  isASCII s = true →
  ∃ sp r, skipSpaces s = Stop r ∧ s = sp ++ r ∧ spaces sp.
Proof.
  induction s as [|c s IH]; simpl.
  - intros _. exists [], []. split_and!; [done..|constructor].
  - intros [Hc Hs]%andb_true_iff.
    assert ((RuneSelf <=? code c) = false) as -> by (unfold RuneSelf in *; lia).
    destruct (asciiSpace c) eqn:Hsp.
    + destruct (IH Hs) as (sp & r & -> & -> & Hsps).
      exists (c :: sp), r. split_and!; [done..|]. by constructor.
    + exists [], (c :: s). split_and!; [done..|constructor].
Qed.

Lemma skipSpaces_word c s :
  (code c <? RuneSelf) = true → asciiSpace c = false →
  skipSpaces (c :: s) = Stop (c :: s).
Proof.
  intros Hc Hsp. simpl. rewrite Hsp.
  by assert ((RuneSelf <=? code c) = false) as -> by (unfold RuneSelf in *; lia).
Qed.

Lemma fieldsASCII_spaces_l sp x :
  spaces sp → fieldsASCII (sp ++ x) = fieldsASCII x.
Proof.
  induction 1 as [|c sp Hc _ IH]; [done|].
  unfold fieldsASCII at 1. simpl app. by rewrite fieldsFrom_space.
Qed.

Lemma fieldsFrom_spaces sp : spaces sp → fieldsFrom sp = ([], []).
Proof.
  induction 1 as [|c sp Hc _ IH]; [done|].
  rewrite fieldsFrom_space by done. unfold fieldsASCII. by rewrite IH.
Qed.

Lemma fieldsFrom_spaces_r x sp :
  spaces sp → fieldsFrom (x ++ sp) = fieldsFrom x.
Proof.
  intros Hsp. induction x as [|c x IH]; simpl.
  - by apply fieldsFrom_spaces.
  - by rewrite IH.
Qed.

Lemma TrimSpace_ascii U s :
  isASCII s = true →
  ∃ sp1 sp2, s = sp1 ++ TrimSpace U s ++ sp2 ∧ spaces sp1 ∧ spaces sp2.
Proof.
  intros Hs. unfold TrimSpace.
  destruct (skipSpaces_ascii s Hs) as (sp1 & r & -> & -> & Hsp1).
  rewrite isASCII_app in Hs. apply andb_true_iff in Hs as [_ Hr].
  destruct (skipSpaces_ascii (reverse r)) as (sp2 & r' & -> & Hrev & Hsp2).
  { apply isASCII_Forall. rewrite Forall_reverse.
    by apply isASCII_Forall. }
  exists sp1, (reverse sp2). split_and!; [|done|].
  - f_equal. rewrite <- reverse_app, <- Hrev. by rewrite reverse_involutive.
  - unfold spaces. by rewrite Forall_reverse.
Qed.

Lemma fieldsASCII_TrimSpace U s :
  isASCII s = true → fieldsASCII (TrimSpace U s) = fieldsASCII s.
Proof.
  intros (sp1 & sp2 & Hs & H1 & H2)%(TrimSpace_ascii U).
  rewrite Hs at 2. rewrite fieldsASCII_spaces_l by done.
  unfold fieldsASCII. by rewrite fieldsFrom_spaces_r.
Qed.

Lemma isASCII_TrimSpace U s :
  isASCII s = true → isASCII (TrimSpace U s) = true.
Proof.
  intros Hs. destruct (TrimSpace_ascii U s Hs) as (sp1 & sp2 & Heq & _).
  rewrite Heq, !isASCII_app in Hs.
  by apply andb_true_iff in Hs as [_ [? _]%andb_true_iff].
Qed.

(** The two normalising statements of [extractTitle] together. *)
Lemma normalize_ascii U s :
  isASCII s = true → Join (Fields U (TrimSpace U s)) " " = collapse s.
Proof.
  intros Hs. unfold Fields.
  rewrite isASCII_TrimSpace, fieldsASCII_TrimSpace by done. done.
Qed.

(** A collapsed string is empty or has a word byte at both ends. *)
Lemma Join_last fs :
  Forall goodField fs → fs ≠ [] →
  ∃ x c, Join fs " " = x ++ [c] ∧ asciiSpace c = false.
Proof.
  induction 1 as [|f fs [Hne Hf] Hfs IH]; [done|]. intros _.
  rewrite Join_cons. destruct fs as [|f' fs].
  - simpl. rewrite app_nil_r.
    destruct (exists_last Hne) as (x & c & ->). exists x, c. split; [done|].
    unfold wordChars in Hf. rewrite Forall_app, Forall_singleton in Hf.
    by destruct Hf.
  - destruct IH as (x & c & Hx & Hc); [done|].
    exists (f ++ " " ++ x), c. split; [|done].
    change (sepJoin (f' :: fs)) with (" " ++ Join (f' :: fs) " ").
    by rewrite Hx, <- !app_assoc.
Qed.

Lemma TrimSpace_collapse U s :
  isASCII s = true → TrimSpace U (collapse s) = collapse s.
Proof.
  intros Hs%isASCII_collapse. unfold collapse in *.
  pose proof (fieldsASCII_good s) as Hgood.
  destruct (fieldsASCII s) as [|f fs] eqn:Hfs; [done|].
  destruct (Join_last (f :: fs)) as (x & c & Hx & Hc); [done..|].
  inversion Hgood as [|?? [Hne Hf] _]; subst.
  destruct f as [|d f]; [done|]. apply Forall_cons in Hf as [Hd _].
  rewrite Join_cons in *. simpl app in *.
  unfold TrimSpace. rewrite skipSpaces_word; [|simpl in Hs; lia | done].
  rewrite Hx in Hs |- *. rewrite reverse_app, reverse_singleton.
  change ([c] ++ reverse x) with (c :: reverse x).
  rewrite skipSpaces_word; [| |done].
  - change (c :: reverse x) with (reverse [c] ++ reverse x).
    by rewrite <- reverse_app, reverse_involutive.
  - rewrite isASCII_app in Hs. simpl in Hs. lia.
Qed.

(** *** Slices *)

(** *** [collapse] trims and squeezes *)

Lemma trimRight_spaces s : spaces s → trimRight s = [].
Proof.
  induction 1 as [|c s Hc _ IH]; [done|]. simpl. by rewrite IH, Hc.
Qed.

Lemma trimRight_nil s : trimRight s = [] → spaces s.
Proof.
  induction s as [|c s IH]; [by constructor|]. simpl.
  destruct (trimRight s); [|done].
  destruct (asciiSpace c) eqn:Hc; [|done]. intros _.
  constructor; [done | by apply IH].
Qed.

Lemma trimRight_cons c s :
  trimRight s ≠ [] → trimRight (c :: s) = c :: trimRight s.
Proof. simpl. by destruct (trimRight s). Qed.

Lemma trimRight_head c s t : trimRight (c :: s) = t → t ≠ [] → ∃ t', t = c :: t'.
Proof.
  simpl. destruct (trimRight s) as [|d t0].
  - destruct (asciiSpace c); intros <-; [done | by exists []].
  - intros <- _. by eexists.
Qed.

Lemma fieldsASCII_nil s : fieldsASCII s = [] → spaces s.
Proof.
  induction s as [|c s IH]; [by constructor|].
  destruct (asciiSpace c) eqn:Hc.
  - unfold fieldsASCII at 1. rewrite fieldsFrom_space by done.
    intros Hs. constructor; [done | by apply IH].
  - unfold fieldsASCII. simpl. destruct (fieldsFrom s). by rewrite Hc.
Qed.

Lemma squeeze_space c d t :
  asciiSpace c = true →
  squeeze (c :: d :: t)
  = if asciiSpace d then squeeze (d :: t) else " "%char :: squeeze (d :: t).
Proof.
  intros Hc.
  change (squeeze (c :: d :: t))
    with (if asciiSpace c
          then (if asciiSpace d then squeeze (d :: t)
                else " "%char :: squeeze (d :: t))
          else c :: squeeze (d :: t)).
  by rewrite Hc.
Qed.

Lemma squeeze_word c s : asciiSpace c = false → squeeze (c :: s) = c :: squeeze s.
Proof.
  intros Hc. change (squeeze (c :: s))
    with (if asciiSpace c
          then match s with
               | [] => " "
               | d :: _ => if asciiSpace d then squeeze s
                           else " "%char :: squeeze s
               end
          else c :: squeeze s).
  by rewrite Hc.
Qed.

Lemma squeeze_trimRight s :
  squeeze (trimRight s)
  = match s with
    | [] => []
    | c :: _ => if asciiSpace c then sepJoin (fieldsASCII s) else collapse s
    end.
Proof.
  induction s as [|c s IH]; [done|].
  destruct (decide (trimRight s = [])) as [Hnil|Hne].
  - pose proof (trimRight_nil s Hnil) as Hsp.
    simpl trimRight. rewrite Hnil.
    destruct (asciiSpace c) eqn:Hc.
    + unfold fieldsASCII. rewrite fieldsFrom_space by done.
      unfold fieldsASCII. by rewrite fieldsFrom_spaces.
    + rewrite collapse_word, fieldsFrom_spaces by done.
      simpl. by rewrite Hc.
  - rewrite trimRight_cons by done.
    destruct s as [|d s]; [done|].
    destruct (trimRight_head d s _ eq_refl Hne) as [t Ht].
    rewrite Ht in IH |- *.
    assert (fieldsASCII (d :: s) ≠ []) as Hfs.
    { intros Hsp%fieldsASCII_nil. by apply trimRight_spaces in Hsp. }
    destruct (asciiSpace c) eqn:Hc.
    + rewrite squeeze_space by done.
      unfold fieldsASCII at 1. rewrite fieldsFrom_space by done. cbn [addField].
      rewrite IH. destruct (asciiSpace d) eqn:Hd; [done|].
      unfold collapse. by destruct (fieldsASCII (d :: s)).
    + rewrite squeeze_word, collapse_word by done. f_equal. rewrite IH.
      destruct (asciiSpace d) eqn:Hd.
      * unfold fieldsASCII at 1. by rewrite fieldsFrom_space.
      * rewrite collapse_fieldsFrom. simpl.
        destruct (fieldsFrom s). by rewrite Hd.
Qed.

Lemma trimLeft_split s :
  ∃ sp, s = sp ++ trimLeft s ∧ spaces sp
        ∧ match trimLeft s with
          | [] => True
          | c :: _ => asciiSpace c = false
          end.
Proof.
  induction s as [|c s (sp & Hs & Hsp & Hhd)].
  { exists []. split_and!; [done | constructor | done]. }
  simpl. destruct (asciiSpace c) eqn:Hc.
  - exists (c :: sp). split_and!; [simpl; by f_equal | by constructor | done].
  - exists []. split_and!; [done | constructor | done].
Qed.

(** [Join (Fields s) " "] trims [s] and squeezes its runs of white
    space. *)
Lemma collapse_trimCollapse s : collapse s = trimCollapse s.
Proof.
  unfold trimCollapse. destruct (trimLeft_split s) as (sp & Hs & Hsp & Hhd).
  rewrite squeeze_trimRight. rewrite Hs at 1.
  unfold collapse at 1. rewrite fieldsASCII_spaces_l by done.
  destruct (trimLeft s) as [|c r]; [done|]. by rewrite Hhd.
Qed.

(** *** [SplitN] at the first separator *)

Lemma find_char_None (c : ascii) s : find [c] s = None ↔ c ∉ s.
Proof.
  induction s as [|d s IH]; simpl.
  - split; [by intros _ ?%elem_of_nil | done].
  - rewrite not_elem_of_cons, <- IH.
    destruct (Ascii.eqb_spec c d) as [->|Hne].
    + split; [done | by intros []].
    + destruct (find [c] s); split; try done. by intros [].
Qed.

Lemma find_char_Some (c : ascii) s m :
  find [c] s = Some m →
  s = take m s ++ [c] ++ drop (m + 1) s ∧ c ∉ take m s.
Proof.
  revert m. induction s as [|d s IH]; intros m; simpl; [done|].
  destruct (Ascii.eqb_spec c d) as [->|Hne].
  - intros [= <-]. simpl. split; [done | apply not_elem_of_nil].
  - destruct (find [c] s) as [m'|]; [|done]. intros [= <-].
    destruct (IH m' eq_refl) as [Hs Hnot]. simpl. split.
    + f_equal. exact Hs.
    + by apply not_elem_of_cons.
Qed.

Lemma SplitN_2 s (c : ascii) :
  SplitN s [c] 2
  = match find [c] s with
    | None => [s]
    | Some m => [take m s; drop (m + 1) s]
    end.
Proof. simpl. by destruct (find [c] s). Qed.

(** *** Slices *)

Lemma slice_in_range s (lo hi : nat) :
  (lo ≤ hi ≤ length s)%nat →
  slice s (Z.of_nat lo) (Z.of_nat hi) = Some (take (hi - lo) (drop lo s)).
Proof.
  intros [H1 H2]. unfold slice, len.
  rewrite !andb_true_intro; [|split_and!; lia..].
  by rewrite <- Nat2Z.inj_sub, !Nat2Z.id by done.
Qed.

Lemma slice_from_in_range s (lo : nat) :
  (lo ≤ length s)%nat → slice_from s (Z.of_nat lo) = Some (drop lo s).
Proof.
  intros Hlo. unfold slice_from, len. rewrite slice_in_range by lia.
  by rewrite take_ge by (rewrite length_drop; lia).
Qed.
End StringFacts.

(** * [extractTitle] on ASCII bodies *)

Section ExtractTitle.
Variable U : Unicode.

(** On an ASCII body no slice is out of range, and the title is the
    collapsed text between the first ["<title>"] of the lower-cased
    body and the first ["</title>"] after it. *)
Lemma extractTitle_ascii body :
  isASCII body = true →
  extractTitle U body
  = Some match find "<title>" (map lowerByte body) with
         | None => ""
         | Some i =>
             match find "</title>" (drop (i + 7) (map lowerByte body)) with
             | None => ""
             | Some e => collapse (take e (drop (i + 7) body))
             end
         end.
Proof.
  intros Hascii. unfold extractTitle. rewrite ToLower_ascii by done.
  unfold Index. destruct (find "<title>" _) as [i|] eqn:Hi; [|done].
  assert ((Z.of_nat i =? -1) = false) as -> by (apply Z.eqb_neq; lia).
  apply find_Some in Hi as (_ & Hlen & _). simpl length in Hlen.
  replace (Z.of_nat i + 7) with (Z.of_nat (i + 7)) by lia.
  rewrite slice_from_in_range by done. simpl.
  destruct (find "</title>" _) as [e|] eqn:He; [|done].
  assert ((Z.of_nat e =? -1) = false) as -> by (apply Z.eqb_neq; lia).
  apply find_Some in He as (_ & Hlen' & _).
  rewrite length_drop in Hlen'. simpl length in Hlen'.
  rewrite length_map in Hlen, Hlen'.
  replace (Z.of_nat (i + 7) + Z.of_nat e)
    with (Z.of_nat (i + 7 + e)) by lia.
  rewrite slice_in_range by lia. simpl.
  replace (i + 7 + e - (i + 7))%nat with e by lia.
  rewrite normalize_ascii; [done|].
  by apply isASCII_take, isASCII_drop.
Qed.
End ExtractTitle.


(** * The properties of the specification *)

(** The claim of C7 as it is written fails: the title of
    [<title>Foo</title>] is [Foo], and the title of [Foo] is empty. *)
Lemma extractTitle_twice_differs :
  (extractTitle noUnicode "<title>Foo</title>" ≫= extractTitle noUnicode)
  ≠ extractTitle noUnicode "<title>Foo</title>".
Proof. vm_compute. discriminate. Qed.

(** C7, amended.  Title extraction normalises white space but is not
    idempotent.  On every ASCII body [extractTitle] returns a title [t]
    that trimming and collapsing leave unchanged, and the title of [t]
    itself is empty, because [t] holds no closing tag.  So extracting
    twice gives the same as extracting once exactly when the title is
    empty. *)
Theorem extractTitle_normalizes U body :
  isASCII body = true →
  ∃ t, extractTitle U body = Some t
       ∧ TrimSpace U t = t
       ∧ Join (Fields U t) " " = t
       ∧ extractTitle U t = Some ""
       ∧ ((extractTitle U body ≫= extractTitle U) = extractTitle U body
          ↔ t = "").
Proof.
  intros Hbody.
  assert (∀ t, extractTitle U body = Some t → extractTitle U t = Some "" →
               (extractTitle U body ≫= extractTitle U) = extractTitle U body
               ↔ t = "") as Hiff.
  { intros t -> Ht. simpl. rewrite Ht.
    split; [by intros [= <-] | by intros ->]. }
  pose proof (extractTitle_ascii U body Hbody) as Hex.
  destruct (find "<title>" (map lowerByte body)) as [i|] eqn:Hi;
    [|by exists ""; split_and!; [..|apply Hiff]].
  destruct (find "</title>" _) as [e|] eqn:He in Hex;
    [|by exists ""; split_and!; [..|apply Hiff]].
  set (span := take e (drop (i + 7) body)) in *.
  assert (isASCII span = true) as Hspan by by apply isASCII_take, isASCII_drop.
  assert (extractTitle U (collapse span) = Some "") as Htwice.
  { rewrite extractTitle_ascii by by apply isASCII_collapse.
    destruct (find "<title>" (map lowerByte (collapse span))) as [i'|];
      [|done].
    destruct (find "</title>" (drop _ (map lowerByte (collapse span))))
      as [e'|] eqn:He'; [exfalso|done].
    apply find_Some in He' as (Hocc & _).
    apply occursAt_drop in Hocc. rewrite <- collapse_lower in Hocc.
    apply collapse_occurs in Hocc as [j Hj];
      [|done|by repeat constructor].
    subst span. rewrite <- firstn_map, <- skipn_map in Hj.
    apply occursAt_take in Hj as [Hj Hlen]; [|done].
    apply find_Some in He as (_ & _ & Hfirst).
    apply (Hfirst j); [simpl in Hlen; lia | done]. }
  exists (collapse span). split_and!; [done| | |done|by apply Hiff].
  - by apply TrimSpace_collapse.
  - unfold Fields. rewrite isASCII_collapse, fieldsASCII_collapse by done.
    done.
Qed.

Lemma extractTitle_normalizes_witness :
  ∃ t, extractTitle noUnicode "<title> a  b </title>" = Some t
       ∧ TrimSpace noUnicode t = t
       ∧ Join (Fields noUnicode t) " " = t
       ∧ extractTitle noUnicode t = Some ""
       ∧ ((extractTitle noUnicode "<title> a  b </title>"
             ≫= extractTitle noUnicode)
          = extractTitle noUnicode "<title> a  b </title>"
          ↔ t = "").
Proof. apply extractTitle_normalizes. reflexivity. Defined.

(** C6 fails on a body with a byte outside ASCII.  [extractTitle]
    finds the two tags in [lower], the lower-cased copy of the body,
    and cuts [body] itself at the offsets it found there; for such a
    body [strings.ToLower] does not keep the offsets.  In a run where
    [strings.Map] writes U+FFFD for the byte FF, as it does, the title
    of [\xff<title>Foo</title>] is [o</] and not [Foo], and with five
    such bytes before [<title></title>] the slice expression is out of
    range: [extractTitle] panics, and so does [probeURL] with
    [-title]. *)
Theorem extractTitle_offsets_of_lower U :
  (MapToLower U (xFF :: "<title>Foo</title>")
   = runeError ++ "<title>foo</title>" →
   extractTitle U (xFF :: "<title>Foo</title>") = Some "o</")
  ∧ (MapToLower U (replicate 5 xFF ++ "<title></title>")
     = concat (replicate 5 runeError) ++ "<title></title>" →
     extractTitle U (replicate 5 xFF ++ "<title></title>") = None
     ∧ ∀ status url method userAgent,
         probeURL U
           (answering {| StatusCode := status; HeaderGet := λ _, "";
                         Body := replicate 5 xFF ++ "<title></title>";
                         BodyFails := false |})
           url method userAgent true
         = None).
Proof.
  split.
  - intros Hlower. unfold extractTitle, ToLower.
    change (isASCII (xFF :: "<title>Foo</title>")) with false.
    cbv iota. rewrite Hlower. reflexivity.
  - intros Hlower.
    assert (extractTitle U (replicate 5 xFF ++ "<title></title>") = None)
      as Hpanic.
    { unfold extractTitle, ToLower.
      change (isASCII (replicate 5 xFF ++ "<title></title>")) with false.
      cbv iota. rewrite Hlower. reflexivity. }
    split; [done|]. intros status url method userAgent.
    unfold probeURL, answering, readAllLimited.
    cbn [NewRequestOk Do negb Body BodyFails].
    change (4096 <=? length (replicate 5 xFF ++ "<title></title>"))%nat
      with false.
    cbv iota. by rewrite Hpanic.
Qed.

Lemma extractTitle_offsets_of_lower_witness :
  extractTitle replacingFF (xFF :: "<title>Foo</title>") = Some "o</"
  ∧ extractTitle replacingFF (replicate 5 xFF ++ "<title></title>") = None.
Proof.
  split.
  - apply (proj1 (extractTitle_offsets_of_lower replacingFF)). reflexivity.
  - apply (proj2 (extractTitle_offsets_of_lower replacingFF)). reflexivity.
Defined.

(** X20.  On an ASCII body [extractTitle] takes the text between the
    first ["<title>"] and the first ["</title>"] after it, both found
    without regard to case, trims its leading and trailing white space
    and turns every run of white space inside it into one space
    ([trimCollapse]); the body of the example has the title [Foo Bar];
    a body without a title tag has the empty title; and [formatOutput]
    prints an empty title as [-] when the title is shown. *)
Theorem extractTitle_first_span U :
  (∀ pre opening span closing post,
     let body := pre ++ opening ++ span ++ closing ++ post in
     isASCII body = true →
     map lowerByte opening = "<title>" →
     map lowerByte closing = "</title>" →
     (∀ j, (j < length pre)%nat →
           ¬ occursAt "<title>" (map lowerByte body) j) →
     (∀ j, (j < length span)%nat →
           ¬ occursAt "</title>" (map lowerByte (span ++ closing ++ post)) j) →
     extractTitle U body = Some (trimCollapse span))
  ∧ extractTitle U ("<TITLE>  Foo" ++ [LF] ++ " Bar  </TITLE>")
    = Some "Foo Bar"
  ∧ (∀ body, (∀ j, ¬ occursAt "<title>" (ToLower U body) j) →
             extractTitle U body = Some "")
  ∧ (∀ url r showStatus showServer,
       title r = "" →
       formatOutput url r showStatus showServer true
       = formatOutput url r showStatus showServer false ++ " [-]").
Proof.
  split_and!.
  - intros pre opening span closing post body Hascii Hopen Hclose Hfirst Hlast.
    rewrite extractTitle_ascii by done.
    assert (length opening = 7%nat) as Hlen.
    { by rewrite <- (length_map lowerByte), Hopen. }
    assert (map lowerByte body
            = map lowerByte pre ++ "<title>"
              ++ map lowerByte (span ++ closing ++ post)) as Hlower.
    { unfold body. by rewrite !map_app, Hopen. }
    assert (find "<title>" (map lowerByte body) = Some (length pre)) as ->.
    { apply find_first; [|done|rewrite length_map; unfold body;
                                rewrite length_app; lia].
      rewrite Hlower, <- (length_map lowerByte pre).
      apply occursAt_app_length. }
    assert (drop (length pre + 7) body = span ++ closing ++ post) as Hrest.
    { unfold body. rewrite <- drop_drop, drop_app_length.
      by rewrite <- Hlen, drop_app_length. }
    rewrite skipn_map, Hrest.
    assert (find "</title>" (map lowerByte (span ++ closing ++ post))
            = Some (length span)) as ->.
    { apply find_first; [|done|rewrite length_map, length_app; lia].
      rewrite !map_app, Hclose, <- (length_map lowerByte span).
      apply occursAt_app_length. }
    by rewrite take_app_length, collapse_trimCollapse.
  - by vm_compute.
  - intros body Hno. unfold extractTitle, Index.
    by rewrite find_absent.
  - intros url r showStatus showServer Hr. unfold formatOutput.
    by rewrite Hr.
Qed.

Lemma extractTitle_first_span_witness :
  extractTitle noUnicode ("<html><Title>" ++ " Home  page " ++ "</TITLE></html>")
  = Some "Home page".
Proof.
  apply (proj1 (extractTitle_first_span noUnicode)
           "<html>" "<Title>" " Home  page " "</TITLE>" "</html>");
    [reflexivity | reflexivity | reflexivity | |].
  - intros j Hj. simpl in Hj.
    do 6 (destruct j as [|j]; [by vm_compute|]). lia.
  - intros j Hj. simpl in Hj.
    do 12 (destruct j as [|j]; [by vm_compute|]). lia.
Defined.

(** C5.  When the request cannot be built or the exchange fails,
    [probeURL] returns the result with [success = false], status 0 and
    empty server and title, whatever the URL, the method, the user agent
    and [needBody] are. *)
Theorem probeURL_error U client url method userAgent needBody :
  NewRequestOk client method url = false
  ∨ Do client (probeRequest url method userAgent) = None →
  probeURL U client url method userAgent needBody
  = Some {| success := false; status := 0; server := ""; title := "" |}.
Proof.
  unfold probeURL, probeRequest. intros [-> | Hdo]; [done|].
  destruct (NewRequestOk client method url); [|done].
  simpl. by rewrite Hdo.
Qed.

Lemma probeURL_error_witness :
  probeURL noUnicode unreachable "https://example.com" "GET" "httprobe" true
  = Some {| success := false; status := 0; server := ""; title := "" |}.
Proof. apply probeURL_error. right. reflexivity. Defined.


(** [itoa] prints the decimal numeral of its argument. *)
Lemma itoa_decimal n :
  Z.of_int <$> NilZero.int_of_string (String.string_of_list_ascii (itoa n))
  = Some n.
Proof.
  unfold itoa. rewrite String.string_of_list_ascii_of_string.
  rewrite NilZero.isi.
  - simpl. f_equal. apply DecimalZ.of_to.
  - destruct n; simpl; [done| |done].
    intros [= Hp]. by apply DecimalPos.Unsigned.to_uint_nonnil in Hp.
  - destruct n; simpl; [done..|].
    intros [= Hp]. by apply DecimalPos.Unsigned.to_uint_nonnil in Hp.
Qed.

(** * The feeder *)

Section FeederFacts.
Variable U : Unicode.

(** A token that is not a named set is split at its first [":"]. *)
Lemma feedProbe_token domain p :
  ¬ namedSet p →
  feedProbe U domain p
  = match SplitN p ":" 2 with
    | [scheme; port] =>
        [((if bool_decide (ToLower U scheme = "https")
           then httpsURLs else httpURLs), hostPort domain port)]
    | _ => []
    end.
Proof.
  unfold namedSet, feedProbe. intros Hp.
  repeat (case_bool_decide; [tauto|]).
  destruct (SplitN p ":" 2) as [|? [|? [|]]]; try done.
  by case_bool_decide.
Qed.
End FeederFacts.

(** The claim of C3 as it is written fails: the token [http:80:81] has
    two separators and is not skipped. *)
Lemma two_separators_not_skipped :
  separators "http:80:81" ≠ 1%nat
  ∧ feedProbe noUnicode "example.com" "http:80:81"
    = [(httpURLs, "example.com:80:81")].
Proof. split; [by vm_compute | by vm_compute]. Qed.

(** C3, amended.  An extra-probe token that is not a named set is
    skipped, with no submission, exactly when it has no [":"] at all.
    A token with one separator or more is split at the first one: what
    follows it, further separators included, is the port, and the token
    gives one submission. *)
Theorem feedProbe_separator U domain p :
  ¬ namedSet p →
  ((":"%char ∉ p) → feedProbe U domain p = [])
  ∧ ((":"%char ∈ p) →
     ∃ scheme port,
       p = scheme ++ ":" ++ port ∧ (":"%char ∉ scheme)
       ∧ feedProbe U domain p
         = [((if bool_decide (ToLower U scheme = "https")
              then httpsURLs else httpURLs), domain ++ ":" ++ port)]).
Proof.
  intros Hp. rewrite feedProbe_token, SplitN_2 by done.
  destruct (find ":" p) as [m|] eqn:Hm.
  - apply find_char_Some in Hm as [Heq Hnot]. split.
    + intros Hno. rewrite Heq in Hno. destruct Hno.
      apply elem_of_app. right. apply list_elem_of_here.
    + intros _. by exists (take m p), (drop (m + 1) p).
  - apply find_char_None in Hm. split; [done | by intros ?].
Qed.

Lemma feedProbe_separator_witness :
  ∃ scheme port,
    "http:80:81" = scheme ++ ":" ++ port ∧ (":"%char ∉ scheme)
    ∧ feedProbe noUnicode "example.com" "http:80:81"
      = [((if bool_decide (ToLower noUnicode scheme = "https")
           then httpsURLs else httpURLs), "example.com" ++ ":" ++ port)].
Proof.
  apply (feedProbe_separator noUnicode "example.com" "http:80:81").
  - unfold namedSet. intros [H|[H|H]]; discriminate H.
  - apply list_elem_of_In. simpl. tauto.
Defined.

(** * The pipeline *)

Section PipelineFacts.
Variable U : Unicode.
Variable cfg : config.

(** ** The size of the pools *)

Lemma started_count fuel i bound :
  (Z.to_nat (bound - i) ≤ fuel)%nat →
  started fuel i bound = Z.to_nat (bound - i).
Proof.
  revert i. induction fuel as [|fuel IH]; intros i Hfuel; simpl.
  - lia.
  - destruct (Z.ltb_spec i bound).
    + rewrite IH by lia. lia.
    + lia.
Qed.

Lemma poolSize_quot : poolSize cfg = Z.to_nat (concurrency cfg ÷ 2).
Proof.
  unfold poolSize. rewrite started_count; [f_equal; lia|].
  pose proof (Z.quot_lt (concurrency cfg) 2).
  pose proof (Z.quot_pos (concurrency cfg) 2).
  destruct (Z.le_gt_cases (concurrency cfg) 0) as [Hle|Hgt].
  - assert (concurrency cfg ÷ 2 ≤ 0).
    { rewrite <- (Z.opp_involutive (concurrency cfg)), Z.quot_opp_l by lia.
      pose proof (Z.quot_pos (- concurrency cfg) 2). lia. }
    lia.
  - lia.
Qed.

(** ** Workers and their program points *)

Lemma lookup_setWorker_eq s p i w w0 :
  workers s p !! i = Some w0 →
  workers (setWorker p i w s) p !! i = Some w.
Proof.
  intros Hi. simpl. rewrite fn_lookup_insert.
  apply list_lookup_insert_eq. by eapply lookup_lt_Some.
Qed.

Lemma lookup_setWorker_ne s p i w q j :
  (p, i) ≠ (q, j) →
  workers (setWorker p i w s) q !! j = workers s q !! j.
Proof.
  intros Hne. simpl. destruct (decide (p = q)) as [->|Hpq].
  - rewrite fn_lookup_insert. apply list_lookup_insert_ne. congruence.
  - by rewrite fn_lookup_insert_ne.
Qed.

Lemma lookup_setWorker s p i w q j w' :
  workers (setWorker p i w s) q !! j = Some w' →
  (p = q ∧ i = j ∧ w' = w) ∨ workers s q !! j = Some w'.
Proof.
  destruct (decide ((p, i) = (q, j))) as [[= -> ->]|Hne].
  - simpl. rewrite fn_lookup_insert. intros Hj. left.
    destruct (decide (j < length (workers s q))%nat).
    + rewrite list_lookup_insert_eq in Hj by done. naive_solver.
    + rewrite list_insert_ge in Hj by lia.
      apply lookup_lt_Some in Hj. lia.
  - rewrite lookup_setWorker_ne by done. by right.
Qed.

Lemma length_setWorker s p i w q :
  length (workers (setWorker p i w s) q) = length (workers s q).
Proof.
  simpl. destruct (decide (p = q)) as [->|Hpq].
  - by rewrite fn_lookup_insert, length_insert.
  - by rewrite fn_lookup_insert_ne.
Qed.

Lemma alive_zero ws i w : alive ws = O → ws !! i = Some w → w = Done.
Proof.
  unfold alive. revert i. induction ws as [|w' ws IH]; intros i; [done|].
  rewrite filter_cons. destruct (decide (w' ≠ Done)) as [|Hw']; [done|].
  intros Hz. destruct i as [|i]; simpl.
  - intros [= <-]. by destruct (decide (w' = Done)).
  - by apply IH.
Qed.

Lemma alive_insert ws i w w' :
  ws !! i = Some w → w ≠ Done → w' ≠ Done →
  alive (<[i:=w']> ws) = alive ws.
Proof.
  unfold alive. revert i. induction ws as [|w0 ws IH]; intros i; [done|].
  destruct i as [|i]; simpl.
  - intros [= ->] Hw Hw'. rewrite !filter_cons.
    by rewrite !decide_True by done.
  - intros Hi Hw Hw'. rewrite !filter_cons.
    destruct (decide (w0 ≠ Done)); simpl; by rewrite IH.
Qed.

Lemma alive_insert_Done ws i w :
  ws !! i = Some w → w ≠ Done →
  alive (<[i:=Done]> ws) = pred (alive ws).
Proof.
  unfold alive. revert i. induction ws as [|w0 ws IH]; intros i; [done|].
  destruct i as [|i]; simpl.
  - intros [= ->] Hw. rewrite !filter_cons.
    destruct (decide (w ≠ Done)); [|done].
    by destruct (decide (Done ≠ Done)).
  - intros Hi Hw. rewrite !filter_cons.
    destruct (decide (w0 ≠ Done)); simpl; rewrite IH by done; [|done].
    assert (alive ws ≠ O) as Hpos; [|unfold alive in Hpos; lia].
    intros Hz. by apply (alive_zero ws i w) in Hz.
Qed.

Lemma alive_replicate n : alive (replicate n Receive) = n.
Proof.
  unfold alive. induction n as [|n IH]; [done|].
  change (replicate (S n) Receive) with (Receive :: replicate n Receive).
  rewrite filter_cons, decide_True by done. simpl. by rewrite IH.
Qed.

(** ** The invariant *)

Lemma feedProbe_channels domain p m :
  m ∈ feedProbe U domain p → m.1 ≠ output.
Proof.
  unfold feedProbe. intros Hm.
  assert (∀ ports : list gostring,
            m ∈ map (λ port, (httpsURLs, hostPort domain port)) ports →
            m.1 ≠ output) as Hports.
  { intros ports (port & <- & _)%list_elem_of_In%in_map_iff. done. }
  repeat (case_bool_decide; [by eapply Hports|]).
  destruct (SplitN p ":" 2) as [|? [|? [|]]];
    try by apply elem_of_nil in Hm.
  case_bool_decide; apply list_elem_of_singleton in Hm as ->; done.
Qed.

Lemma feed_channels lines m : m ∈ feed U cfg lines → m.1 ≠ output.
Proof.
  unfold feed. intros Hm%list_elem_of_In%in_concat.
  destruct Hm as (sends & (line & <- & _)%in_map_iff & Hm).
  apply list_elem_of_In in Hm. unfold feedLine in Hm.
  apply elem_of_app in Hm as [Hm|Hm].
  - destruct (skipDefault cfg); [by apply elem_of_nil in Hm|].
    by apply list_elem_of_singleton in Hm as ->.
  - apply list_elem_of_In, in_concat in Hm.
    destruct Hm as (sends & (p & <- & _)%in_map_iff & Hm).
    by eapply feedProbe_channels, list_elem_of_In.
Qed.

Lemma invariant_init lines : invariant (poolSize cfg) (init U cfg lines).
Proof.
  split; simpl; try done.
  - intros p. apply length_replicate.
  - intros p. by rewrite alive_replicate.
  - intros p i [Hi|Hi]; by apply lookup_replicate in Hi as [[=] _].
  - apply feed_channels.
  - intros p i m rest Hi. by apply lookup_replicate in Hi as [[=] _].
Qed.

(** A worker that is not done moves to another program point of its
    loop. *)
Lemma invariant_setWorker n s p i w w' :
  invariant n s →
  workers s p !! i = Some w → w ≠ Done → w' ≠ Done →
  (w' = Exiting → closed s (input p) = true) →
  (∀ m rest, w' = Sending m rest →
             Forall (λ m, downstream p m.1) (m :: rest)) →
  invariant n (setWorker p i w' s).
Proof.
  intros [Hsize Hwg Hexit Hhttps Hhttp Hout Hfeed Hsend] Hi Hw Hw' Hex Hsd.
  split; try done.
  - intros q. by rewrite length_setWorker.
  - intros q. simpl. destruct (decide (p = q)) as [<-|Hpq].
    + rewrite fn_lookup_insert. by erewrite alive_insert.
    + by rewrite fn_lookup_insert_ne.
  - intros q j [Hj|Hj]; apply lookup_setWorker in Hj as [(<- & <- & ?)|Hj];
      simpl; eauto; congruence.
  - intros q j m rest [(<- & <- & ?)|Hj]%lookup_setWorker; eauto.
Qed.

(** [wg.Done()] *)
Lemma invariant_done n s p i :
  invariant n s →
  workers s p !! i = Some Exiting →
  invariant n (setWg (<[p := pred (wg s p)]> (wg s)) (setWorker p i Done s)).
Proof.
  intros [Hsize Hwg Hexit Hhttps Hhttp Hout Hfeed Hsend] Hi.
  split; try done.
  - intros q. change (length (workers (setWorker p i Done s) q) = n).
    by rewrite length_setWorker.
  - intros q. simpl. destruct (decide (p = q)) as [<-|Hpq].
    + rewrite !fn_lookup_insert, Hwg. by erewrite alive_insert_Done.
    + by rewrite !fn_lookup_insert_ne.
  - intros q j Hj. change (closed s (input q) = true).
    change (workers (setWorker p i Done s) q !! j = Some Exiting
            ∨ workers (setWorker p i Done s) q !! j = Some Done) in Hj.
    destruct Hj as [Hj|Hj];
      apply lookup_setWorker in Hj as [(<- & <- & ?)|Hj]; eauto.
  - simpl. intros Hc. destruct p; simpl.
    + rewrite fn_lookup_insert. by rewrite Hhttp.
    + rewrite fn_lookup_insert_ne by done. auto.
  - simpl. intros Hc. destruct p; simpl.
    + rewrite fn_lookup_insert_ne by done. auto.
    + rewrite fn_lookup_insert. by rewrite Hout.
  - intros q j m rest Hj.
    change (workers (setWorker p i Done s) q !! j = Some (Sending m rest))
      in Hj.
    apply lookup_setWorker in Hj as [(<- & <- & ?)|Hj]; eauto. done.
Qed.

Lemma invariant_setFeeder n s m rest :
  invariant n s → feeder s = m :: rest → invariant n (setFeeder rest s).
Proof.
  intros [Hsize Hwg Hexit Hhttps Hhttp Hout Hfeed Hsend] Hf.
  split; try done. simpl. intros m' Hm'. apply Hfeed. rewrite Hf.
  by apply list_elem_of_further.
Qed.

Lemma invariant_close n s ch :
  invariant n s →
  match ch with
  | httpsURLs => False
  | httpURLs => wg s HTTPSPool = O
  | output => wg s HTTPPool = O
  end →
  invariant n (close ch s).
Proof.
  intros [Hsize Hwg Hexit Hhttps Hhttp Hout Hfeed Hsend] Hch.
  split; try done; simpl.
  - intros p i Hi. destruct (decide (ch = input p)) as [->|Hne].
    + apply fn_lookup_insert.
    + rewrite fn_lookup_insert_ne by done. eauto.
  - destruct ch; [done|rewrite fn_lookup_insert_ne by done; auto..].
  - destruct ch; [done|done|rewrite fn_lookup_insert_ne by done; auto].
  - destruct ch; [done|rewrite fn_lookup_insert_ne by done; auto|done].
Qed.

Lemma invariant_close_https n s :
  invariant n s → invariant n (setMainAt Waiting (close httpsURLs s)).
Proof.
  intros [Hsize Hwg Hexit Hhttps Hhttp Hout Hfeed Hsend].
  split; try done; simpl.
  intros p i Hi. destruct p; simpl; [apply fn_lookup_insert|].
  rewrite fn_lookup_insert_ne by done. by apply (Hexit HTTPPool i).
Qed.

Lemma afterProbe_downstream p u result :
  Forall (λ m, downstream p m.1) (afterProbe cfg p u result).
Proof.
  unfold afterProbe.
  destruct p, (success result), (preferHTTPS cfg);
    repeat constructor.
Qed.

Lemma invariant_continue n s p i w todo :
  invariant n s →
  workers s p !! i = Some w → w ≠ Done →
  Forall (λ m, downstream p m.1) todo →
  invariant n (setWorker p i (continue todo) s).
Proof.
  intros Hinv Hi Hw Htodo.
  apply (invariant_setWorker n s p i w); try done.
  - by destruct todo.
  - by destruct todo.
  - intros m rest. destruct todo as [|m' todo]; [done|].
    by intros [= <- <-].
Qed.

Lemma invariant_sends n s m s1 :
  invariant n s → sends s m s1 → invariant n s1.
Proof.
  intros Hinv Hs. destruct Hs as [s' m' rest Hmain Hf | s' p i m' rest Hi].
  - exact (invariant_setFeeder _ _ _ _ Hinv Hf).
  - apply (invariant_continue n s' p i (Sending m' rest)); [done..|].
    apply (inv_sending _ _ Hinv) in Hi. by apply Forall_cons in Hi as [_ ?].
Qed.

Lemma invariant_receives n s ch v s2 :
  invariant n s → receives s ch v s2 → invariant n s2.
Proof.
  intros Hinv Hr. destruct Hr as [s' p i u Hi | s' o Hdone].
  - by apply (invariant_setWorker n s' p i Receive).
  - by destruct Hinv.
Qed.

Lemma invariant_action n s s' :
  invariant n s → action U cfg s s' → invariant n s'.
Proof.
  intros Hinv Hact. destruct Hact.
  - eauto using invariant_sends, invariant_receives.
  - by destruct Hinv.
  - assert (invariant n (setWorker p i
              (continue (afterProbe cfg p u result)) s)) as [];
      [|done].
    apply (invariant_continue n s p i (Probing u)); [done..|].
    apply afterProbe_downstream.
  - by destruct Hinv.
  - by apply (invariant_setWorker n s p i Receive).
  - by apply invariant_done.
  - by apply invariant_close.
  - by apply invariant_close.
  - by destruct Hinv.
  - by apply invariant_close_https.
  - destruct Hinv. split; done.
Qed.

Lemma invariant_reachable lines s :
  reachable U cfg lines s → invariant (poolSize cfg) s.
Proof.
  revert s. apply rtc_ind_r.
  - apply invariant_init.
  - intros s s' _ (_ & _ & Hact) IH. by eapply invariant_action.
Qed.

(** ** A worker that holds a submission *)

Lemma lookup_setWorker_other s p0 i0 w0 w p i x :
  workers s p0 !! i0 = Some w0 → workers s p !! i = Some x → w0 ≠ x →
  workers (setWorker p0 i0 w s) p !! i = Some x.
Proof.
  intros H0 Hi Hne. rewrite lookup_setWorker_ne; [done|].
  intros [= -> ->]. congruence.
Qed.

(** The only step that moves a worker which holds the submission [u]
    is its call of [probeURL] on [scheme ++ u]; the worker goes on
    with the sends of [afterProbe]. *)
Lemma probing_moves s s' p i u :
  action U cfg s s' →
  workers s p !! i = Some (Probing u) →
  workers s' p !! i ≠ Some (Probing u) →
  ∃ client result,
    probeURL U client (scheme p ++ u) (method cfg) (userAgent cfg)
             (showTitle cfg) = Some result
    ∧ workers s' p !! i = Some (continue (afterProbe cfg p u result))
    ∧ probed s' = probed s ++ [scheme p ++ u].
Proof.
  intros Hact Hi Hmoved. destruct Hact as
    [s ch v s1 s2 Hopen Hs Hr | | s p0 i0 u0 client result H0 Hprobe
     | | s p0 i0 H0 Hc | s p0 i0 H0 | | | | | ];
    try by destruct Hmoved.
  - destruct Hmoved.
    assert (workers s1 p !! i = Some (Probing u)) as Hi1.
    { destruct Hs; [done|]. by eapply lookup_setWorker_other. }
    destruct Hr; [|done]. by eapply lookup_setWorker_other.
  - destruct (decide ((p0, i0) = (p, i))) as [[= -> ->]|Hne].
    + rewrite Hi in H0. injection H0 as <-. exists client, result.
      split_and!; [done | | done].
      change (workers (setWorker p i
                (continue (afterProbe cfg p u result)) s) p !! i
              = Some (continue (afterProbe cfg p u result))).
      by eapply lookup_setWorker_eq.
    + destruct Hmoved.
      change (workers (setWorker p0 i0
                (continue (afterProbe cfg p0 u0 result)) s) p !! i
              = Some (Probing u)).
      by rewrite lookup_setWorker_ne.
  - destruct Hmoved. by eapply lookup_setWorker_other.
  - destruct Hmoved.
    change (workers (setWorker p0 i0 Done s) p !! i = Some (Probing u)).
    by eapply lookup_setWorker_other.
Qed.

(** What is sent on a channel is received by a worker of the pool that
    ranges over it, or printed. *)
Lemma receives_input s ch u s' :
  receives s ch u s' →
  (∃ p i, ch = input p ∧ workers s p !! i = Some Receive
          ∧ s' = setWorker p i (Probing u) s)
  ∨ (ch = output ∧ s' = setPrinted (printed s ++ [u]) s).
Proof. destruct 1; [left|right]; eauto. Qed.

(** ** Pools without workers *)

Lemma no_workers s p i w : invariant O s → workers s p !! i = Some w → False.
Proof.
  intros Hinv Hi%lookup_lt_Some. rewrite (inv_size _ _ Hinv) in Hi. lia.
Qed.

Lemma quiet_action s s' :
  invariant O s → action U cfg s s' →
  probed s = [] ∧ printed s = [] → probed s' = [] ∧ printed s' = [].
Proof.
  intros Hinv Hact Hquiet. destruct Hact as
    [s ch v s1 s2 Hopen Hs Hr | | s p0 i0 u0 client result H0 Hprobe
     | s p0 i0 u0 client H0 Hprobe | | | | | | | ];
    try done; try by destruct (no_workers s p0 i0 _ Hinv H0).
  pose proof (invariant_sends _ _ _ _ Hinv Hs) as Hinv1.
  destruct Hr as [s1 p i u Hi | s1 o Hdone].
  - by destruct (no_workers s1 p i _ Hinv1 Hi).
  - inversion Hs as [s0 m rest Hmain Hf | s0 p i m rest Hi]; subst.
    + destruct (inv_feeder _ _ Hinv (output, o)); [|done].
      rewrite Hf. apply list_elem_of_here.
    + by destruct (no_workers s p i _ Hinv Hi).
Qed.

Lemma quiet_without_workers lines s :
  poolSize cfg = O → reachable U cfg lines s →
  probed s = [] ∧ printed s = [].
Proof.
  intros Hsize. revert s. apply rtc_ind_r; [done|].
  intros s s' Hreach (_ & _ & Hact) IH.
  apply invariant_reachable in Hreach. rewrite Hsize in Hreach.
  by apply (quiet_action s s').
Qed.

(** ** No send on a closed channel when the pools have a worker *)

Lemma poolSize_pos : 2 ≤ concurrency cfg → (1 ≤ poolSize cfg)%nat.
Proof.
  intros Hc. rewrite poolSize_quot.
  assert (2 ÷ 2 ≤ concurrency cfg ÷ 2) by (apply Z.quot_le_mono; lia).
  change (2 ÷ 2) with 1 in *. lia.
Qed.

Lemma wg_zero_all_done n s p i w :
  invariant n s → wg s p = O → workers s p !! i = Some w → w = Done.
Proof.
  intros Hinv Hz Hi. rewrite (inv_wg _ _ Hinv) in Hz.
  by eapply alive_zero.
Qed.

(** With a worker in the pool, a wait group at zero means that the
    channel the pool ranges over is closed. *)
Lemma wg_zero_input_closed n s p :
  invariant n s → (1 ≤ n)%nat → wg s p = O → closed s (input p) = true.
Proof.
  intros Hinv Hn Hz.
  destruct (lookup_lt_is_Some_2 (workers s p) O) as [w Hw].
  { rewrite (inv_size _ _ Hinv). lia. }
  apply (inv_exit _ _ Hinv p O). right.
  by rewrite Hw, (wg_zero_all_done n s p O w).
Qed.

Lemma sends_open n s ch v s1 :
  invariant n s → (1 ≤ n)%nat → sends s (ch, v) s1 → closed s ch = false.
Proof.
  intros Hinv Hn Hs. apply not_true_is_false. intros Hclosed.
  assert (closed s httpURLs = true → closed s httpsURLs = true) as Hhttp.
  { intros Hc. apply (wg_zero_input_closed n s HTTPSPool); [done..|].
    by apply (inv_http _ _ Hinv). }
  assert (closed s output = true → closed s httpURLs = true) as Hout.
  { intros Hc. apply (wg_zero_input_closed n s HTTPPool); [done..|].
    by apply (inv_output _ _ Hinv). }
  inversion Hs as [s' m rest Hmain Hf | s' p i m rest Hi]; subst.
  - assert (ch ≠ output) as Hch.
    { apply (inv_feeder _ _ Hinv (ch, v)). rewrite Hf.
      apply list_elem_of_here. }
    apply (inv_https _ _ Hinv); [|done]. destruct ch; auto.
  - pose proof (inv_sending _ _ Hinv _ _ _ _ Hi) as Hdown.
    apply Forall_cons in Hdown as [Hdown _]. simpl in Hdown.
    assert (wg s p = O) as Hz.
    { destruct p, ch; try done.
      - apply (inv_http _ _ Hinv). done.
      - apply (inv_http _ _ Hinv). auto.
      - by apply (inv_output _ _ Hinv). }
    by apply (wg_zero_all_done n s p i _ Hinv Hz) in Hi.
Qed.

Lemma sends_crashed s m s1 : sends s m s1 → crashed s1 = crashed s.
Proof. by destruct 1. Qed.

Lemma receives_crashed s ch v s2 :
  receives s ch v s2 → crashed s2 = crashed s.
Proof. by destruct 1. Qed.

Lemma action_crashed s s' :
  action U cfg s s' →
  crashed s' = crashed s
  ∨ crashed s' = Some SliceOutOfRange
  ∨ ∃ ch v s1, closed s ch = true ∧ sends s (ch, v) s1.
Proof.
  destruct 1; simpl; eauto 7.
  left. erewrite receives_crashed, sends_crashed; done.
Qed.

(** X9.  With a concurrency of two or more no run sends on a closed
    channel, and [httpURLs] is closed only after the feeder loop is
    over and every HTTPS worker is done. *)
Lemma workers_close_in_order lines s :
  2 ≤ concurrency cfg →
  reachable U cfg lines s →
  crashed s ≠ Some SendOnClosedChannel
  ∧ (closed s httpURLs = true →
     mainAt s ≠ Feeding
     ∧ ∀ i w, workers s HTTPSPool !! i = Some w → w = Done).
Proof.
  intros Hc%poolSize_pos Hreach. split.
  - revert s Hreach. apply rtc_ind_r; [done|].
    intros s s' Hreach (_ & _ & Hact) IH.
    apply invariant_reachable in Hreach.
    destruct (action_crashed s s' Hact)
      as [-> | [-> | (ch & v & s1 & Hclosed & Hs)]]; [done..|].
    by rewrite (sends_open (poolSize cfg) s ch v s1) in Hclosed.
  - apply invariant_reachable in Hreach. intros Hclosed.
    assert (wg s HTTPSPool = O) as Hz by by apply (inv_http _ _ Hreach).
    split.
    + apply (inv_https _ _ Hreach).
      by apply (wg_zero_input_closed (poolSize cfg) s HTTPSPool).
    + intros i w. by apply (wg_zero_all_done (poolSize cfg)).
Qed.
End PipelineFacts.

(** * The properties of the pipeline *)

(** C1.  An HTTPS worker that has received the submission [u] first
    calls [probeURL] on ["https://" ++ u].  When the probe succeeds the
    worker sends one line on [output], and nothing else if
    [-prefer-https] is set; when the probe fails, or succeeds without
    [-prefer-https], it then sends the same [u] on [httpURLs]. *)
Theorem https_worker_cascade U cfg s s' i u :
  workers s HTTPSPool !! i = Some (Probing u) →
  step U cfg s s' →
  workers s' HTTPSPool !! i ≠ Some (Probing u) →
  ∃ client result,
    probeURL U client ("https://" ++ u) (method cfg) (userAgent cfg)
             (showTitle cfg) = Some result
    ∧ probed s' = probed s ++ ["https://" ++ u]
    ∧ workers s' HTTPSPool !! i
      = Some (continue
          (if success result then
             (output, formatOutput ("https://" ++ u) result (showStatus cfg)
                        (showServer cfg) (showTitle cfg))
             :: (if preferHTTPS cfg then [] else [(httpURLs, u)])
           else [(httpURLs, u)])).
Proof.
  intros Hi (_ & _ & Hact) Hmoved.
  destruct (probing_moves U cfg s s' HTTPSPool i u Hact Hi Hmoved)
    as (client & result & Hprobe & Hnext & Hlog).
  by exists client, result.
Qed.

Lemma https_worker_cascade_witness :
  let resp := {| StatusCode := 200; HeaderGet := λ _, "nginx";
                 Body := "<title>Example Domain</title>";
                 BodyFails := false |} in
  let s := setWorker HTTPSPool 0 (Probing "example.com")
             (setFeeder [] (init noUnicode showAll ["example.com"])) in
  let s' := setProbed ["https://example.com"]
              (setWorker HTTPSPool 0
                 (Sending (output,
                           "https://example.com [200] [nginx] [Example Domain]")
                          [(httpURLs, "example.com")]) s) in
  ∃ client result,
    probeURL noUnicode client ("https://" ++ "example.com")
             (method showAll) (userAgent showAll) (showTitle showAll)
    = Some result
    ∧ probed s' = probed s ++ ["https://" ++ "example.com"]
    ∧ workers s' HTTPSPool !! 0%nat
      = Some (continue
          (if success result then
             (output, formatOutput ("https://" ++ "example.com") result
                        (showStatus showAll) (showServer showAll)
                        (showTitle showAll))
             :: (if preferHTTPS showAll then [] else [(httpURLs, "example.com")])
           else [(httpURLs, "example.com")])).
Proof.
  intros resp s s'.
  apply (https_worker_cascade noUnicode showAll s s' 0 "example.com").
  - reflexivity.
  - split_and!; [reflexivity | discriminate |].
    apply (act_probe noUnicode showAll s HTTPSPool 0 "example.com"
             (answering resp)
             {| success := true; status := 200; server := "nginx";
                title := "Example Domain" |}); reflexivity.
  - discriminate.
Defined.



(** C2 fails on [httprobe -c 1 -s -p http:8080] with the input line
    [example.com].  No HTTPS worker is started, [httpsWG] is zero from
    the start, and [httpURLs] is closed while the feeder still has its
    send on [httpURLs] to do; that send then panics. *)
Theorem http_closed_before_feeder_send :
  let cfg := flags 1 ["http:8080"] true in
  ∃ s1 s2,
    reachable noUnicode cfg ["example.com"] s1
    ∧ closed s1 httpURLs = true
    ∧ mainAt s1 = Feeding
    ∧ feeder s1 = [(httpURLs, "example.com:8080")]
    ∧ workers s1 HTTPSPool = []
    ∧ step noUnicode cfg s1 s2
    ∧ crashed s2 = Some SendOnClosedChannel.
Proof.
  intros cfg.
  exists (close httpURLs (init noUnicode cfg ["example.com"])).
  eexists. split_and!.
  - apply rtc_once. split_and!; [reflexivity | discriminate |].
    apply act_close_http; reflexivity.
  - reflexivity.
  - reflexivity.
  - reflexivity.
  - reflexivity.
  - split_and!; [reflexivity | discriminate |].
    eapply (act_send_closed _ _ _ httpURLs "example.com:8080");
      [reflexivity|].
    apply main_sends; reflexivity.
  - reflexivity.
Qed.

(** C9.  Each pool starts [c / 2] workers, where [c] is the concurrency
    and [/] is the division of [int], which truncates: the loops
    [for i := 0; i < concurrency/2; i++] start [Z.to_nat (c / 2)]
    goroutines, which is [c / 2] for every [c] that is not negative (a
    negative bound starts none).  A concurrency below 2, such as 1,
    starts no worker in either pool; then no probe is performed and
    nothing is printed. *)
Theorem pool_sizes U cfg lines :
  length (workers (init U cfg lines) HTTPSPool)
  = Z.to_nat (concurrency cfg ÷ 2)
  ∧ length (workers (init U cfg lines) HTTPPool)
    = Z.to_nat (concurrency cfg ÷ 2)
  ∧ (0 ≤ concurrency cfg →
     Z.of_nat (length (workers (init U cfg lines) HTTPSPool))
     = concurrency cfg ÷ 2
     ∧ Z.of_nat (length (workers (init U cfg lines) HTTPPool))
       = concurrency cfg ÷ 2)
  ∧ (concurrency cfg < 2 →
     workers (init U cfg lines) HTTPSPool = []
     ∧ workers (init U cfg lines) HTTPPool = []
     ∧ ∀ s, reachable U cfg lines s → probed s = [] ∧ printed s = []).
Proof.
  simpl. rewrite length_replicate, poolSize_quot. split_and!; [done..| |].
  - intros Hc. pose proof (Z.quot_pos (concurrency cfg) 2). lia.
  - intros Hc. assert (poolSize cfg = O) as Hzero.
    { rewrite poolSize_quot.
      destruct (Z.le_gt_cases 0 (concurrency cfg)).
      - rewrite Z.quot_small by lia. done.
      - rewrite <- (Z.opp_involutive (concurrency cfg)), Z.quot_opp_l by lia.
        pose proof (Z.quot_pos (- concurrency cfg) 2). lia. }
    rewrite <- poolSize_quot, Hzero. split_and!; [done..|].
    intros s. by apply quiet_without_workers.
Qed.

Lemma pool_sizes_witness :
  workers (init noUnicode (flags 1 [] false) ["example.com"]) HTTPSPool = []
  ∧ workers (init noUnicode (flags 1 [] false) ["example.com"]) HTTPPool = []
  ∧ ∀ s, reachable noUnicode (flags 1 [] false) ["example.com"] s →
         probed s = [] ∧ printed s = [].
Proof.
  apply (pool_sizes noUnicode (flags 1 [] false) ["example.com"]).
  reflexivity.
Defined.

(** C4.  A [scheme:port] token whose scheme is [https], in any case of
    the letters, sends [host:port] on [httpsURLs], where it is handled
    as in C1 and may go on to [httpURLs]; a token with any other scheme,
    [http] included, sends [host:port] on [httpURLs].  What is sent on
    [httpURLs] is received by a worker of the HTTP pool only, which
    probes it with ["http://"] and then sends on [output] at most. *)
Theorem probe_token_routing U cfg domain p scheme port :
  ¬ namedSet p →
  SplitN p ":" 2 = [scheme; port] →
  let u := domain ++ ":" ++ port in
  (ToLower U scheme = "https" → feedProbe U domain p = [(httpsURLs, u)])
  ∧ (ToLower U scheme ≠ "https" → feedProbe U domain p = [(httpURLs, u)])
  ∧ (∀ s s', receives s httpURLs u s' →
       ∃ i, workers s HTTPPool !! i = Some Receive
            ∧ s' = setWorker HTTPPool i (Probing u) s)
  ∧ (∀ s s' i,
       workers s HTTPPool !! i = Some (Probing u) →
       step U cfg s s' →
       workers s' HTTPPool !! i ≠ Some (Probing u) →
       probed s' = probed s ++ ["http://" ++ u]
       ∧ ∃ result,
           workers s' HTTPPool !! i
           = Some (continue (afterProbe cfg HTTPPool u result))
           ∧ Forall (λ m, m.1 = output) (afterProbe cfg HTTPPool u result)).
Proof.
  intros Hp Hsplit u. rewrite feedProbe_token, Hsplit by done.
  split_and!.
  - intros Hs. by rewrite bool_decide_true.
  - intros Hs. by rewrite bool_decide_false.
  - intros s s' Hr.
    destruct (receives_input s httpURLs u s' Hr)
      as [(q & i & Hq & Hi & ->)|[[=] _]].
    destruct q; [done|]. by exists i.
  - intros s s' i Hi (_ & _ & Hact) Hmoved.
    destruct (probing_moves U cfg s s' HTTPPool i u Hact Hi Hmoved)
      as (client & result & _ & Hnext & Hlog).
    split; [done|]. exists result. split; [done|].
    unfold afterProbe. destruct (success result); by repeat constructor.
Qed.

Lemma probe_token_routing_witness :
  let u := "example.com" ++ ":" ++ "81" in
  (ToLower noUnicode "http" = "https" →
   feedProbe noUnicode "example.com" "http:81" = [(httpsURLs, u)])
  ∧ (ToLower noUnicode "http" ≠ "https" →
     feedProbe noUnicode "example.com" "http:81" = [(httpURLs, u)])
  ∧ (∀ s s', receives s httpURLs u s' →
       ∃ i, workers s HTTPPool !! i = Some Receive
            ∧ s' = setWorker HTTPPool i (Probing u) s)
  ∧ (∀ s s' i,
       workers s HTTPPool !! i = Some (Probing u) →
       step noUnicode showAll s s' →
       workers s' HTTPPool !! i ≠ Some (Probing u) →
       probed s' = probed s ++ ["http://" ++ u]
       ∧ ∃ result,
           workers s' HTTPPool !! i
           = Some (continue (afterProbe showAll HTTPPool u result))
           ∧ Forall (λ m, m.1 = output)
               (afterProbe showAll HTTPPool u result)).
Proof.
  apply (probe_token_routing noUnicode showAll "example.com" "http:81"
           "http" "81").
  - unfold namedSet. intros [H|[H|H]]; discriminate H.
  - reflexivity.
Defined.

(** [strings.ToLower] on an ASCII string replaces the upper-case
    letters and nothing else. *)
Lemma lowerByte_letter c :
  lowerByte c = replaceLetter "ABCDEFGHIJKLMNOPQRSTUVWXYZ"
                              "abcdefghijklmnopqrstuvwxyz" c.
Proof. by destruct c as [[] [] [] [] [] [] [] []]. Qed.

Lemma ToLower_lowerCased U line :
  isASCII line = true → ToLower U line = lowerCased line.
Proof.
  intros Hascii. rewrite ToLower_ascii by done.
  apply map_ext, lowerByte_letter.
Qed.

(** C10.  With the default probes on, every line the scanner yields is
    lower-cased and sent on [httpsURLs] as it is: no line is dropped and
    white space is kept, so a line of white space is its own
    submission.  Lower-casing an ASCII line turns the letters [A] to [Z]
    into [a] to [z] and keeps every other byte: the line [Example.COM]
    is submitted as [example.com].  For the empty line the submission
    is empty, and an HTTPS worker that receives it probes the URL
    [https://]. *)
Theorem every_line_is_submitted U cfg :
  skipDefault cfg = false →
  (∀ line, ∃ extra,
     feedLine U cfg line = (httpsURLs, ToLower U line) :: extra)
  ∧ (∀ lines line,
       line ∈ lines → (httpsURLs, ToLower U line) ∈ feed U cfg lines)
  ∧ (∀ line, isASCII line = true → ToLower U line = lowerCased line)
  ∧ (∃ extra,
       feedLine U cfg "Example.COM" = (httpsURLs, "example.com") :: extra)
  ∧ (∀ line, spaces line → ToLower U line = line)
  ∧ (2 ≤ concurrency cfg →
     ∃ s, reachable U cfg [""] s ∧ probed s = ["https://"]).
Proof.
  intros Hskip.
  assert (∀ line, ∃ extra,
            feedLine U cfg line = (httpsURLs, ToLower U line) :: extra)
    as Hline.
  { intros line. unfold feedLine. rewrite Hskip. by eexists. }
  split_and!; [done | | apply ToLower_lowerCased | apply (Hline "Example.COM")
               | apply ToLower_spaces |].
  - intros lines line Hin. unfold feed.
    apply list_elem_of_In, in_concat. exists (feedLine U cfg line). split.
    + apply in_map. by apply list_elem_of_In.
    + destruct (Hline line) as [extra ->]. by left.
  - intros Hc%poolSize_pos.
    destruct (Hline "") as [extra Hfeed].
    change (ToLower U "") with (@nil ascii) in Hfeed.
    set (s0 := init U cfg [""]).
    assert (feeder s0 = (httpsURLs, "") :: extra) as Hf.
    { change (feeder s0) with (feedLine U cfg "" ++ []).
      by rewrite app_nil_r. }
    assert (workers s0 HTTPSPool !! O = Some Receive) as Hw.
    { simpl. apply lookup_replicate. split; [done | lia]. }
    set (s1 := setWorker HTTPSPool 0 (Probing "") (setFeeder extra s0)).
    exists (setProbed (probed s1 ++ ["https://" ++ ""])
              (setWorker HTTPSPool 0
                 (continue (afterProbe cfg HTTPSPool "" zeroResult)) s1)).
    split; [|done].
    apply (rtc_l _ _ s1).
    { split_and!; [done | by simpl |].
      apply (act_rendezvous U cfg s0 httpsURLs "" (setFeeder extra s0));
        [done | by apply main_sends |].
      by apply (worker_receives (setFeeder extra s0) HTTPSPool). }
    apply rtc_once. split_and!; [done | by simpl |].
    apply (act_probe U cfg s1 HTTPSPool 0 "" unreachable zeroResult);
      [|done].
    by apply (lookup_setWorker_eq (setFeeder extra s0) _ _ _ Receive).
Qed.

Lemma every_line_is_submitted_witness :
  (∀ line, ∃ extra,
     feedLine noUnicode (flags 20 [] false) line
     = (httpsURLs, ToLower noUnicode line) :: extra)
  ∧ (∀ lines line,
       line ∈ lines →
       (httpsURLs, ToLower noUnicode line)
       ∈ feed noUnicode (flags 20 [] false) lines)
  ∧ (∀ line, isASCII line = true → ToLower noUnicode line = lowerCased line)
  ∧ (∃ extra,
       feedLine noUnicode (flags 20 [] false) "Example.COM"
       = (httpsURLs, "example.com") :: extra)
  ∧ (∀ line, spaces line → ToLower noUnicode line = line)
  ∧ (2 ≤ concurrency (flags 20 [] false) →
     ∃ s, reachable noUnicode (flags 20 [] false) [""] s
          ∧ probed s = ["https://"]).
Proof. apply every_line_is_submitted. reflexivity. Defined.

(** * Further properties of the pipeline *)

Section Termination.
Variable U : Unicode.
Variable cfg : config.

Lemma poolCost_insert p ws i w w' :
  ws !! i = Some w →
  (poolCost p (<[i:=w']> ws) + workerCost p w
   = poolCost p ws + workerCost p w')%nat.
Proof.
  unfold poolCost. revert i. induction ws as [|w0 ws IH]; intros i; [done|].
  destruct i as [|i]; simpl.
  - intros [= ->]. lia.
  - intros Hi. specialize (IH i Hi). lia.
Qed.

Lemma stepsLeft_setWorker s p i w w' :
  workers s p !! i = Some w →
  (stepsLeft (setWorker p i w' s) + workerCost p w
   = stepsLeft s + workerCost p w')%nat.
Proof.
  intros Hi. unfold stepsLeft, mainCost, setWorker, setWorkers.
  cbn [workers mainAt feeder closed outputDone crashed].
  pose proof (poolCost_insert p (workers s p) i w w' Hi).
  destruct p; rewrite fn_lookup_insert, fn_lookup_insert_ne by done; lia.
Qed.

Lemma workerCost_continue p todo :
  workerCost p (continue todo) = (todoCost todo + 2)%nat.
Proof. by destruct todo. Qed.

Lemma sends_cost s m s1 :
  sends s m s1 → (stepsLeft s1 + sendCost m = stepsLeft s)%nat.
Proof.
  destruct 1 as [s m rest Hmain Hf | s p i m rest Hi].
  - unfold stepsLeft, mainCost. simpl. rewrite Hmain, Hf.
    unfold todoCost. simpl. lia.
  - pose proof (stepsLeft_setWorker s p i _ (continue rest) Hi) as Hcost.
    rewrite workerCost_continue in Hcost. simpl in Hcost.
    unfold todoCost in *. simpl in *. lia.
Qed.

Lemma receives_cost s ch v s2 :
  receives s ch v s2 → (stepsLeft s2 < stepsLeft s + sendCost (ch, v))%nat.
Proof.
  destruct 1 as [s p i u Hi | s o Hdone].
  - pose proof (stepsLeft_setWorker s p i _ (Probing u) Hi) as Hcost.
    destruct p; simpl in *; unfold sendCost; simpl; lia.
  - unfold sendCost. simpl.
    change (stepsLeft (setPrinted (printed s ++ [o]) s)) with (stepsLeft s).
    lia.
Qed.

Lemma afterProbe_cost p u result :
  (todoCost (afterProbe cfg p u result) + 2
   < workerCost p (Probing u))%nat.
Proof.
  unfold afterProbe.
  destruct p, (success result), (preferHTTPS cfg); simpl; lia.
Qed.

(** Every step uses up some of what is left. *)
Lemma step_decreases s s' :
  step U cfg s s' → (stepsLeft s' < stepsLeft s)%nat.
Proof.
  intros (Hlive & _ & Hact).
  destruct Hact as
    [s ch v s1 s2 Hopen Hs Hr | s ch v s1 Hclosed Hs
     | s p i u client result Hi Hprobe | s p i u client Hi Hprobe
     | s p i Hi Hc | s p i Hi | s Hwg Hc | s Hwg Hc | s Hc Hdone
     | s Hmain Hf | s Hmain Hdone ].
  - apply sends_cost in Hs. apply receives_cost in Hr. lia.
  - unfold stepsLeft, mainCost. simpl. rewrite Hlive. lia.
  - pose proof (stepsLeft_setWorker s p i _
                  (continue (afterProbe cfg p u result)) Hi) as Hcost.
    rewrite workerCost_continue in Hcost.
    pose proof (afterProbe_cost p u result).
    change (stepsLeft (setProbed _ ?t)) with (stepsLeft t). lia.
  - unfold stepsLeft, mainCost. simpl. rewrite Hlive. lia.
  - pose proof (stepsLeft_setWorker s p i _ Exiting Hi) as Hcost.
    simpl in Hcost. lia.
  - pose proof (stepsLeft_setWorker s p i _ Done Hi) as Hcost.
    change (stepsLeft (setWg _ ?t)) with (stepsLeft t).
    simpl in Hcost. lia.
  - unfold stepsLeft, mainCost. simpl. rewrite Hc.
    unfold insert, fn_insert. simpl. lia.
  - unfold stepsLeft, mainCost. simpl. rewrite Hc.
    unfold insert, fn_insert. simpl. lia.
  - unfold stepsLeft, mainCost. simpl. rewrite Hdone. simpl. lia.
  - unfold stepsLeft, mainCost. simpl. rewrite Hmain, Hf.
    unfold insert, fn_insert. simpl. lia.
  - unfold stepsLeft, mainCost. simpl. rewrite Hmain. lia.
Qed.

Lemma poolCost_replicate p n :
  poolCost p (replicate n Receive) = (2 * n)%nat.
Proof.
  unfold poolCost. induction n as [|n IH]; [done|]. simpl in *. lia.
Qed.

Lemma todoCost_bound todo : (todoCost todo ≤ 6 * length todo)%nat.
Proof.
  unfold todoCost. induction todo as [|[ch v] todo IH]; [done|].
  cbn [map sum_list length].
  assert (sendCost (ch, v) ≤ 6)%nat by (destruct ch; unfold sendCost; simpl; lia).
  unfold id. rewrite Nat.mul_succ_r, (Nat.add_comm (6 * _)).
  apply Nat.add_le_mono; [exact H | exact IH].
Qed.
End Termination.

(** X1.  Every run of the pipeline is finite.  A run of [k] steps from
    the start has [k] at most six times the number of submissions of
    the feeder, plus four times the size of a pool, plus six. *)
Theorem runs_are_bounded U cfg lines k s :
  nsteps (step U cfg) k (init U cfg lines) s →
  (k ≤ 6 * length (feed U cfg lines) + 4 * poolSize cfg + 6)%nat.
Proof.
  intros Hrun.
  assert (k + stepsLeft s ≤ stepsLeft (init U cfg lines))%nat as Hk.
  { induction Hrun as [|k s0 s1 s2 Hstep Hrun IH]; [lia|].
    apply step_decreases in Hstep. lia. }
  assert (stepsLeft (init U cfg lines)
          ≤ 6 * length (feed U cfg lines) + 4 * poolSize cfg + 6)%nat;
    [|lia].
  unfold stepsLeft, mainCost. simpl. rewrite !poolCost_replicate.
  pose proof (todoCost_bound (feed U cfg lines)). lia.
Qed.

Lemma runs_are_bounded_witness :
  (1 ≤ 6 * length (feed noUnicode (flags 1 ["http:8080"] true)
                     ["example.com"])
       + 4 * poolSize (flags 1 ["http:8080"] true) + 6)%nat.
Proof.
  apply (runs_are_bounded noUnicode (flags 1 ["http:8080"] true)
           ["example.com"] 1
           (close httpURLs
              (init noUnicode (flags 1 ["http:8080"] true) ["example.com"]))).
  apply nsteps_once. split_and!; [reflexivity | discriminate |].
  apply act_close_http; reflexivity.
Defined.

Section Lifecycle.
Variable U : Unicode.
Variable cfg : config.

Lemma lifecycle_sends s m s1 : lifecycle s → sends s m s1 → lifecycle s1.
Proof.
  intros [Hfed Hout Hret] Hs. destruct Hs as [s m rest Hmain Hf | s p i m rest Hi].
  - split; [|done..]. simpl. intros Hne. by destruct Hne.
  - by split.
Qed.

Lemma lifecycle_receives s ch v s2 :
  lifecycle s → receives s ch v s2 → lifecycle s2.
Proof. intros [Hfed Hout Hret] Hr. destruct Hr; by split. Qed.

Lemma lifecycle_action s s' :
  lifecycle s → action U cfg s s' → lifecycle s'.
Proof.
  intros Hlife Hact. destruct Hact as
    [s ch v s1 s2 Hopen Hs Hr | s ch v s1 Hclosed Hs
     | s p i u client result Hi Hprobe | s p i u client Hi Hprobe
     | s p i Hi Hc | s p i Hi | s Hwg Hc | s Hwg Hc | s Hc Hdone
     | s Hmain Hf | s Hmain Hdone ].
  - eauto using lifecycle_sends, lifecycle_receives.
  - by destruct Hlife.
  - by destruct Hlife.
  - by destruct Hlife.
  - by destruct Hlife.
  - by destruct Hlife.
  - destruct Hlife as [Hfed Hout Hret]. split; simpl; [| |done].
    + intros Hne. rewrite fn_lookup_insert_ne by done. by apply Hfed.
    + intros Hdone. rewrite fn_lookup_insert_ne by done. by apply Hout.
  - destruct Hlife as [Hfed Hout Hret]. split; simpl; [| |done].
    + intros Hne. rewrite fn_lookup_insert_ne by done. by apply Hfed.
    + intros _. by rewrite fn_lookup_insert.
  - destruct Hlife as [Hfed Hout Hret]. split; simpl; [done..|].
    intros Hmain. apply Hret in Hmain. congruence.
  - destruct Hlife as [Hfed Hout Hret]. split; simpl.
    + intros _. by rewrite fn_lookup_insert.
    + intros Hdone. rewrite fn_lookup_insert_ne by done. by apply Hout.
    + done.
  - destruct Hlife as [Hfed Hout Hret]. split; simpl; [|done..].
    intros _. apply Hfed. congruence.
Qed.

Lemma worker_search (P : worker → bool) (ws : list worker) :
  (∃ i w, ws !! i = Some w ∧ P w = true)
  ∨ (∀ i w, ws !! i = Some w → P w = false).
Proof.
  induction ws as [|w0 ws [(i & w & Hi & Hw)|IH]].
  - right. by intros i w.
  - left. by exists (S i), w.
  - destruct (P w0) eqn:Hw0.
    + left. by exists O, w0.
    + right. intros [|i] w; simpl; [by intros [= <-] | apply IH].
Qed.

Lemma alive_all_done (ws : list worker) :
  (∀ i w, ws !! i = Some w → w = Done) → alive ws = O.
Proof.
  unfold alive. induction ws as [|w0 ws IH]; intros Hall; [done|].
  rewrite filter_cons, (Hall O w0 eq_refl).
  rewrite decide_False by naive_solver. apply IH.
  intros i w Hi. by apply (Hall (S i)).
Qed.

(** A worker that is [ready] has a step. *)
Lemma ready_action s p i w :
  lifecycle s → workers s p !! i = Some w → ready s p w = true →
  ∃ s', action U cfg s s'.
Proof.
  intros Hlife Hi Hready. destruct w as [|u|[ch v] rest| |]; simpl in Hready.
  - eexists. by apply (act_range_end U cfg s p i).
  - eexists. by apply (act_probe U cfg s p i u unreachable zeroResult).
  - destruct (closed s ch) eqn:Hch.
    + eexists. eapply (act_send_closed U cfg s ch v); [done|].
      by apply (worker_sends s p i (ch, v) rest).
    + simpl in Hready. apply bool_decide_eq_true in Hready as ->.
      eexists. eapply (act_rendezvous U cfg s output v); [done| |].
      * by apply (worker_sends s p i (output, v) rest).
      * apply output_receives. simpl.
        destruct (outputDone s) eqn:Hdone; [|done].
        apply (life_output _ Hlife) in Hdone. congruence.
  - eexists. by apply (act_done U cfg s p i).
  - done.
Qed.

(** A worker that is not [ready] waits on its open channel, waits to
    send on the open [httpURLs], or is done. *)
Lemma idle_worker n s p i w :
  invariant n s → workers s p !! i = Some w → ready s p w = false →
  (w = Receive ∧ closed s (input p) = false)
  ∨ (∃ v rest, w = Sending (httpURLs, v) rest ∧ p = HTTPSPool
               ∧ closed s httpURLs = false)
  ∨ w = Done.
Proof.
  intros Hinv Hi Hready. destruct w as [|u|[ch v] rest| |];
    simpl in Hready; try done; auto.
  apply orb_false_iff in Hready as [Hch Hout].
  apply bool_decide_eq_false in Hout.
  apply (inv_sending _ _ Hinv) in Hi. apply Forall_cons in Hi as [Hd _].
  simpl in Hd. right. left. exists v, rest.
  destruct p, ch; try done.
Qed.

Lemma lifecycle_reachable lines s :
  reachable U cfg lines s → lifecycle s.
Proof.
  revert s. apply rtc_ind_r.
  - split; simpl; done.
  - intros s s' _ (_ & _ & Hact) IH. by eapply lifecycle_action.
Qed.
End Lifecycle.

(** X2.  With a concurrency of two or more the pipeline cannot get
    stuck: in every state of a run in which the process has not
    panicked and [main] has not returned, some goroutine can take a
    step. *)
Theorem no_deadlock U cfg lines s :
  2 ≤ concurrency cfg →
  reachable U cfg lines s →
  crashed s = None → mainAt s ≠ Returned →
  ∃ s', step U cfg s s'.
Proof.
  intros Hc%poolSize_pos Hreach Hlive Hmain.
  pose proof (invariant_reachable U cfg lines s Hreach) as Hinv.
  pose proof (lifecycle_reachable U cfg lines s Hreach) as Hlife.
  assert (∀ s', action U cfg s s' → ∃ s', step U cfg s s') as Hstep.
  { intros s' Hact. by exists s'. }
  assert (∀ p, ∃ w, workers s p !! O = Some w) as Hfirst.
  { intros p. apply lookup_lt_is_Some_2. rewrite (inv_size _ _ Hinv). lia. }
  (* a worker that is ready *)
  destruct (worker_search (ready s HTTPSPool) (workers s HTTPSPool))
    as [(i & w & Hi & Hw)|Hhttps].
  { destruct (ready_action U cfg s _ i w Hlife Hi Hw) as [s' Hact]. eauto. }
  destruct (worker_search (ready s HTTPPool) (workers s HTTPPool))
    as [(i & w & Hi & Hw)|Hhttp].
  { destruct (ready_action U cfg s _ i w Hlife Hi Hw) as [s' Hact]. eauto. }
  assert (∀ p i w, workers s p !! i = Some w →
            (w = Receive ∧ closed s (input p) = false)
            ∨ (∃ v rest, w = Sending (httpURLs, v) rest ∧ p = HTTPSPool
                         ∧ closed s httpURLs = false)
            ∨ w = Done) as Hidle.
  { intros p i w Hi. apply (idle_worker _ s p i w Hinv Hi).
    destruct p; eauto. }
  (* a worker of an open channel waits to receive on it *)
  assert (∀ p, closed s (input p) = false →
            (∀ i v rest, workers s p !! i ≠ Some (Sending (httpURLs, v) rest)) →
            workers s p !! O = Some Receive) as Hrecv.
  { intros p Hopen Hnosend. destruct (Hfirst p) as [w Hw].
    destruct (Hidle p O w Hw) as [[-> _]|[(v & rest & -> & _)| ->]]; [done| |].
    - by destruct (Hnosend O v rest).
    - rewrite (inv_exit _ _ Hinv p O) in Hopen; [done | by right]. }
  assert (∀ i v rest,
            workers s HTTPPool !! i ≠ Some (Sending (httpURLs, v) rest))
    as Hhttp_nosend.
  { intros i v rest Hi.
    destruct (Hidle HTTPPool i _ Hi) as [[[=] _]|[(? & ? & _ & [=] & _)|[=]]]. }
  (* an HTTPS worker that waits to send on httpURLs *)
  destruct (worker_search (λ w, match w with Sending _ _ => true | _ => false end)
              (workers s HTTPSPool)) as [(i & w & Hi & Hw)|Hnosend].
  { destruct (Hidle HTTPSPool i w Hi)
      as [[-> _]|[(v & rest & -> & _ & Hopen)| ->]]; [done| |done].
    apply (Hstep (setWorker HTTPPool O (Probing v)
                    (setWorker HTTPSPool i (continue rest) s))).
    apply (act_rendezvous U cfg s httpURLs v
             (setWorker HTTPSPool i (continue rest) s)); [done| |].
    - by apply (worker_sends s HTTPSPool i (httpURLs, v) rest).
    - apply (worker_receives _ HTTPPool O v).
      rewrite lookup_setWorker_ne by done. by apply Hrecv. }
  assert (∀ i v rest,
            workers s HTTPSPool !! i ≠ Some (Sending (httpURLs, v) rest))
    as Hhttps_nosend.
  { intros i v rest Hi. by apply Hnosend in Hi. }
  assert (∀ p i v rest,
            workers s p !! i ≠ Some (Sending (httpURLs, v) rest))
    as Hnone by (intros []; auto).
  (* only main is left *)
  destruct (mainAt s) eqn:Hat; [| |done].
  - destruct (feeder s) as [|[ch v] rest] eqn:Hf.
    { eexists. split_and!; [done | congruence |].
      by apply act_close_https. }
    destruct (closed s ch) eqn:Hch.
    { eexists. split_and!; [done | congruence |].
      eapply (act_send_closed U cfg s ch v); [done|].
      by apply main_sends. }
    assert (ch ≠ output) as Hout.
    { apply (inv_feeder _ _ Hinv (ch, v)). rewrite Hf.
      apply list_elem_of_here. }
    assert (∃ p, ch = input p) as [p ->] by (destruct ch;
      [by exists HTTPSPool | by exists HTTPPool | done]).
    eexists. split_and!; [done | congruence |].
    apply (act_rendezvous U cfg s (input p) v (setFeeder rest s)); [done| |].
    + by apply main_sends.
    + apply (worker_receives (setFeeder rest s) p O v). by apply Hrecv.
  - destruct (life_fed _ Hlife) as [Hclosed _]; [congruence|].
    assert (∀ p, closed s (input p) = true → wg s p = O) as Hzero.
    { intros p Hcl. rewrite (inv_wg _ _ Hinv). apply alive_all_done.
      intros i w Hi.
      destruct (Hidle p i w Hi) as [[_ Hopen]|[(v & rest & -> & _)| ->]];
        [congruence | by destruct (Hnone p i v rest) | done]. }
    destruct (closed s httpURLs) eqn:Hhttp_closed.
    2:{ eexists. split_and!; [done | congruence |].
        apply act_close_http; [by apply (Hzero HTTPSPool) | done]. }
    destruct (closed s output) eqn:Hout_closed.
    2:{ eexists. split_and!; [done | congruence |].
        apply act_close_output; [by apply (Hzero HTTPPool) | done]. }
    destruct (outputDone s) eqn:Hdone.
    + eexists. split_and!; [done | congruence |]. by apply act_return.
    + eexists. split_and!; [done | congruence |]. by apply act_output_done.
Qed.

Lemma no_deadlock_witness :
  ∃ s', step noUnicode showAll (init noUnicode showAll ["example.com"]) s'.
Proof.
  apply (no_deadlock noUnicode showAll ["example.com"]);
    [by vm_compute | apply rtc_refl | reflexivity | discriminate].
Defined.

Lemma poolSize_zero cfg : concurrency cfg < 2 → poolSize cfg = O.
Proof.
  intros Hc. rewrite poolSize_quot.
  destruct (Z.le_gt_cases 0 (concurrency cfg)).
  - by rewrite Z.quot_small by lia.
  - rewrite <- (Z.opp_involutive (concurrency cfg)), Z.quot_opp_l by lia.
    pose proof (Z.quot_pos (- concurrency cfg) 2). lia.
Qed.

Lemma poolSize_zero_inv cfg : poolSize cfg = O → concurrency cfg < 2.
Proof.
  intros Hz. destruct (Z.lt_ge_cases (concurrency cfg) 2) as [|Hc]; [done|].
  apply poolSize_pos in Hc. lia.
Qed.

(** X3.  With a concurrency below 2 nothing ever receives what the
    feeder sends: when there is a submission at all, [main] stays at its
    first send in every state of every run (it blocks there for good, or
    panics), so it never closes [httpsURLs] and never returns. *)
Theorem blocked_without_workers U cfg lines s :
  concurrency cfg < 2 →
  feed U cfg lines ≠ [] →
  reachable U cfg lines s →
  mainAt s = Feeding ∧ feeder s = feed U cfg lines
  ∧ closed s httpsURLs = false.
Proof.
  intros Hc%poolSize_zero Hfeed. revert s. apply rtc_ind_r; [done|].
  intros s s' Hreach (_ & _ & Hact) (Hmain & Hf & Hopen).
  apply invariant_reachable in Hreach as Hinv. rewrite Hc in Hinv.
  destruct Hact as
    [s ch v s1 s2 _ Hs Hr | s ch v s1 Hclosed Hs
     | s p i u client result Hi Hprobe | s p i u client Hi Hprobe
     | s p i Hi Hcl | s p i Hi | s Hwg Hcl | s Hwg Hcl | s Hcl Hdone
     | s Hat Hnil | s Hat Hdone ];
    try done; try by destruct (no_workers s p i _ Hinv Hi).
  - pose proof (invariant_sends _ _ _ _ Hinv Hs) as Hinv1.
    destruct Hr as [s1 p i u Hi | s1 o Hdone].
    + by destruct (no_workers s1 p i _ Hinv1 Hi).
    + inversion Hs as [s0 m rest Hat Hhd | s0 p i m rest Hi]; subst.
      * destruct (inv_feeder _ _ Hinv (output, o)); [|done].
        rewrite Hhd. apply list_elem_of_here.
      * by destruct (no_workers s p i _ Hinv Hi).
  - congruence.
  - congruence.
Qed.

Lemma blocked_without_workers_witness :
  mainAt (init noUnicode (flags 1 [] false) ["example.com"]) = Feeding
  ∧ feeder (init noUnicode (flags 1 [] false) ["example.com"])
    = feed noUnicode (flags 1 [] false) ["example.com"]
  ∧ closed (init noUnicode (flags 1 [] false) ["example.com"]) httpsURLs
    = false.
Proof.
  apply (blocked_without_workers noUnicode (flags 1 [] false)
           ["example.com"]); [reflexivity | discriminate | apply rtc_refl].
Defined.

(** X4.  The only send on a closed channel that a run can come to is a
    send of the feeder on [httpURLs] at a concurrency below 2.  No worker
    ever sends on a closed channel, and nothing is ever sent on
    [httpsURLs] or on [output] after their close, whatever the
    concurrency. *)
Theorem only_the_feeder_sends_on_closed U cfg lines s ch v s1 :
  reachable U cfg lines s →
  sends s (ch, v) s1 →
  closed s ch = true →
  ch = httpURLs ∧ concurrency cfg < 2
  ∧ mainAt s = Feeding ∧ feeder s = (httpURLs, v) :: feeder s1
  ∧ workers s HTTPSPool = [] ∧ workers s HTTPPool = [].
Proof.
  intros Hinv%invariant_reachable Hs Hclosed.
  destruct (poolSize cfg) as [|n] eqn:Hn.
  2:{ rewrite (sends_open _ s ch v s1 Hinv) in Hclosed; [done | lia | done]. }
  assert (∀ p, workers s p = []) as Hnone.
  { intros p. apply nil_length_inv, (inv_size _ _ Hinv). }
  inversion Hs as [s0 m rest Hat Hhd | s0 p i m rest Hi]; subst.
  - assert (ch ≠ output) as Hout.
    { apply (inv_feeder _ _ Hinv (ch, v)). rewrite Hhd.
      apply list_elem_of_here. }
    destruct ch; [|by split_and!; auto using poolSize_zero_inv|done].
    by destruct (inv_https _ _ Hinv Hclosed).
  - by rewrite Hnone in Hi.
Qed.

Lemma only_the_feeder_sends_on_closed_witness :
  let cfg := flags 1 ["http:8080"] true in
  let s := close httpURLs (init noUnicode cfg ["example.com"]) in
  httpURLs = httpURLs ∧ concurrency cfg < 2
  ∧ mainAt s = Feeding
  ∧ feeder s = (httpURLs, "example.com:8080") :: feeder (setFeeder [] s)
  ∧ workers s HTTPSPool = [] ∧ workers s HTTPPool = [].
Proof.
  intros cfg s.
  apply (only_the_feeder_sends_on_closed noUnicode cfg ["example.com"] s
           httpURLs "example.com:8080" (setFeeder [] s)).
  - apply rtc_once. split_and!; [reflexivity | discriminate |].
    apply act_close_http; reflexivity.
  - apply main_sends; reflexivity.
  - reflexivity.
Defined.

(** X5.  [main] returns only when all the work is done: the feeder has
    sent everything, [httpsURLs] and [output] are closed, the output
    goroutine has printed what it received and ended, and every worker
    of both pools has left its loop, so that no line waits to be sent. *)
Theorem returns_after_all_is_done U cfg lines s :
  reachable U cfg lines s →
  mainAt s = Returned →
  feeder s = []
  ∧ closed s httpsURLs = true ∧ closed s output = true
  ∧ outputDone s = true
  ∧ ∀ p i w, workers s p !! i = Some w → w = Done.
Proof.
  intros Hreach Hat.
  pose proof (invariant_reachable U cfg lines s Hreach) as Hinv.
  pose proof (lifecycle_reachable U cfg lines s Hreach) as Hlife.
  destruct (life_fed _ Hlife) as [Hhttps Hfeeder]; [congruence|].
  pose proof (life_return _ Hlife Hat) as Hdone.
  pose proof (life_output _ Hlife Hdone) as Hout.
  split_and!; [done..|].
  destruct (poolSize cfg) as [|n] eqn:Hn.
  { intros p i w Hi. by destruct (no_workers s p i w Hinv Hi). }
  assert (wg s HTTPPool = O) as Hhttp by by apply (inv_output _ _ Hinv).
  assert (wg s HTTPSPool = O) as Hhttps_wg.
  { apply (inv_http _ _ Hinv).
    apply (wg_zero_input_closed _ s HTTPPool Hinv); [lia | done]. }
  intros [] i w Hi.
  - by apply (wg_zero_all_done (S n) s HTTPSPool i w Hinv).
  - by apply (wg_zero_all_done (S n) s HTTPPool i w Hinv).
Qed.

Lemma returns_after_all_is_done_witness :
  let cfg := flags 2 [] false in
  let s1 := setMainAt Waiting (close httpsURLs (init noUnicode cfg [])) in
  let s2 := setWorker HTTPSPool 0 Exiting s1 in
  let s3 := setWg (<[HTTPSPool := pred (wg s2 HTTPSPool)]> (wg s2))
              (setWorker HTTPSPool 0 Done s2) in
  let s4 := close httpURLs s3 in
  let s5 := setWorker HTTPPool 0 Exiting s4 in
  let s6 := setWg (<[HTTPPool := pred (wg s5 HTTPPool)]> (wg s5))
              (setWorker HTTPPool 0 Done s5) in
  let s := setMainAt Returned (setOutputDone true (close output s6)) in
  feeder s = []
  ∧ closed s httpsURLs = true ∧ closed s output = true
  ∧ outputDone s = true
  ∧ ∀ p i w, workers s p !! i = Some w → w = Done.
Proof.
  intros cfg s1 s2 s3 s4 s5 s6 s.
  apply (returns_after_all_is_done noUnicode cfg []); [|reflexivity].
  apply (rtc_l _ _ s1).
  { split_and!; [reflexivity | discriminate |].
    apply act_close_https; reflexivity. }
  apply (rtc_l _ _ s2).
  { split_and!; [reflexivity | discriminate |].
    apply (act_range_end _ _ s1 HTTPSPool 0); reflexivity. }
  apply (rtc_l _ _ s3).
  { split_and!; [reflexivity | discriminate |].
    apply (act_done _ _ s2 HTTPSPool 0); reflexivity. }
  apply (rtc_l _ _ s4).
  { split_and!; [reflexivity | discriminate |].
    apply act_close_http; reflexivity. }
  apply (rtc_l _ _ s5).
  { split_and!; [reflexivity | discriminate |].
    apply (act_range_end _ _ s4 HTTPPool 0); reflexivity. }
  apply (rtc_l _ _ s6).
  { split_and!; [reflexivity | discriminate |].
    apply (act_done _ _ s5 HTTPPool 0); reflexivity. }
  apply (rtc_l _ _ (close output s6)).
  { split_and!; [reflexivity | discriminate |].
    apply act_close_output; reflexivity. }
  apply (rtc_l _ _ (setOutputDone true (close output s6))).
  { split_and!; [reflexivity | discriminate |].
    apply act_output_done; reflexivity. }
  apply rtc_once. split_and!; [reflexivity | discriminate |].
  apply act_return; reflexivity.
Defined.

Section Provenance.
Variable U : Unicode.
Variable cfg : config.
Variable sent : list send.
Hypothesis sent_channels : ∀ m, m ∈ sent → m.1 ≠ output.

Lemma snoc_split (l : list gostring) y before x after :
  l ++ [y] = before ++ x :: after →
  (after = [] ∧ x = y ∧ before = l)
  ∨ ∃ after', after = after' ++ [y] ∧ l = before ++ x :: after'.
Proof.
  destruct after as [|z after' _] using rev_ind.
  - intros [-> ->]%(app_inj_tail l before y x). by left.
  - rewrite app_comm_cons, app_assoc.
    intros [-> ->]%app_inj_tail. right. by exists after'.
Qed.

Lemma printedFrom_mono urls urls' line :
  urls ⊆ urls' → printedFrom cfg urls line → printedFrom cfg urls' line.
Proof. intros Hsub (url & r & Hin & Hr & ->). exists url, r. auto. Qed.

Lemma origin_mono urls urls' p u :
  urls ⊆ urls' → origin sent urls p u → origin sent urls' p u.
Proof. intros Hsub. destruct p; simpl; [done|]. intros [?|[? ?]]; auto. Qed.

Lemma sendFrom_mono urls urls' p m :
  urls ⊆ urls' → sendFrom cfg sent urls p m → sendFrom cfg sent urls' p m.
Proof.
  intros Hsub. unfold sendFrom. destruct (m.1); [done| |].
  - intros [-> Ho]. split; [done|]. by eapply origin_mono.
  - by apply printedFrom_mono.
Qed.

Lemma provenance_setWorker s p i w :
  provenance cfg sent s →
  (∀ u, w = Probing u → origin sent (probed s) p u) →
  (∀ m rest, w = Sending m rest →
             Forall (sendFrom cfg sent (probed s) p) (m :: rest)) →
  provenance cfg sent (setWorker p i w s).
Proof.
  intros [Hfeeder Hprobing Hsending Hprobed Hprinted] Hu Hm.
  split; try done.
  - intros q j u [(<- & <- & ?)|Hj]%lookup_setWorker; eauto.
  - intros q j m rest [(<- & <- & ?)|Hj]%lookup_setWorker; eauto.
Qed.

Lemma provenance_continue s p i todo :
  provenance cfg sent s →
  Forall (sendFrom cfg sent (probed s) p) todo →
  provenance cfg sent (setWorker p i (continue todo) s).
Proof.
  intros Hprov Htodo. apply provenance_setWorker; [done| |].
  - by destruct todo.
  - intros m rest. destruct todo as [|m' todo]; [done|].
    by intros [= <- <-].
Qed.

Lemma provenance_probed s url :
  provenance cfg sent s →
  (∃ p u, url = scheme p ++ u ∧ origin sent (probed s) p u) →
  provenance cfg sent (setProbed (probed s ++ [url]) s).
Proof.
  intros [Hfeeder Hprobing Hsending Hprobed Hprinted] Hurl.
  assert (probed s ⊆ probed s ++ [url]) as Hsub.
  { intros x Hx. apply elem_of_app. by left. }
  split; simpl; try done.
  - intros p i u Hi. eapply origin_mono; eauto.
  - intros p i m rest Hi. eapply Forall_impl; [by eapply Hsending|].
    intros m'. by apply sendFrom_mono.
  - intros before x after Heq.
    destruct (snoc_split _ _ _ _ _ Heq)
      as [(-> & -> & ->)|(after' & -> & Hs)]; [done|].
    by apply (Hprobed before x after').
  - intros line Hline. eapply printedFrom_mono; eauto.
Qed.

(** What a goroutine sends was submitted by the feeder or is due from
    a worker. *)
Lemma provenance_sends s m s1 :
  provenance cfg sent s → sends s m s1 →
  provenance cfg sent s1
  ∧ probed s1 = probed s
  ∧ (m ∈ sent ∨ ∃ p, sendFrom cfg sent (probed s) p m).
Proof.
  intros Hprov Hs. destruct Hs as [s m rest Hmain Hf | s p i m rest Hi].
  - split_and!; [|done|].
    + destruct Hprov as [Hfeeder Hprobing Hsending Hprobed Hprinted].
      split; try done. simpl. intros m' Hm'. apply Hfeeder. rewrite Hf.
      by apply list_elem_of_further.
    + left. apply (prov_feeder _ _ _ Hprov). rewrite Hf.
      apply list_elem_of_here.
  - pose proof (prov_sending _ _ _ Hprov _ _ _ _ Hi) as [Hm Hrest]%Forall_cons.
    split_and!; [by apply provenance_continue | done | right; by exists p].
Qed.

Lemma provenance_receives s ch v s2 :
  provenance cfg sent s → receives s ch v s2 →
  ((ch, v) ∈ sent ∨ ∃ p, sendFrom cfg sent (probed s) p (ch, v)) →
  provenance cfg sent s2.
Proof.
  intros Hprov Hr Hm. destruct Hr as [s p i u Hi | s o Hdone].
  - apply provenance_setWorker; [done| |done].
    intros u' [= <-]. destruct Hm as [Hm | [q Hm]].
    + destruct p; simpl; auto.
    + unfold sendFrom in Hm. destruct p; simpl in *; [done|].
      by destruct Hm.
  - destruct Hprov as [Hfeeder Hprobing Hsending Hprobed Hprinted].
    split; try done. simpl.
    intros line [Hline|Hline%list_elem_of_singleton]%elem_of_app; [auto|].
    subst line. destruct Hm as [Hm | [q Hm]]; [|done].
    by destruct (sent_channels _ Hm).
Qed.

Lemma afterProbe_sendFrom urls p u result :
  origin sent urls p u →
  Forall (sendFrom cfg sent (urls ++ [scheme p ++ u]) p)
    (afterProbe cfg p u result).
Proof.
  intros Ho.
  assert (scheme p ++ u ∈ urls ++ [scheme p ++ u]) as Hin.
  { apply elem_of_app. right. apply list_elem_of_here. }
  assert (success result = true →
          sendFrom cfg sent (urls ++ [scheme p ++ u]) p
            (output, formatOutput (scheme p ++ u) result (showStatus cfg)
                       (showServer cfg) (showTitle cfg))) as Hline.
  { intros Hr. by exists (scheme p ++ u), result. }
  unfold afterProbe. destruct p, (success result) eqn:Hr;
    try destruct (preferHTTPS cfg); repeat constructor; auto;
    unfold sendFrom; simpl; (split; [done|]); right; (split; [done|]);
    exact Hin.
Qed.

Lemma provenance_action s s' :
  provenance cfg sent s → action U cfg s s' → provenance cfg sent s'.
Proof.
  intros Hprov Hact. destruct Hact as
    [s ch v s1 s2 Hopen Hs Hr | s ch v s1 Hclosed Hs
     | s p i u client result Hi Hprobe | s p i u client Hi Hprobe
     | s p i Hi Hc | s p i Hi | s Hwg Hc | s Hwg Hc | s Hc Hdone
     | s Hmain Hf | s Hmain Hdone ];
    try by destruct Hprov.
  - destruct (provenance_sends s _ s1 Hprov Hs) as (Hprov1 & Heq & Hm).
    apply (provenance_receives s1 ch v s2 Hprov1 Hr). by rewrite Heq.
  - pose proof (prov_probing _ _ _ Hprov _ _ _ Hi) as Ho.
    change (provenance cfg sent
              (setWorker p i (continue (afterProbe cfg p u result))
                 (setProbed (probed s ++ [scheme p ++ u]) s))).
    apply provenance_continue.
    + apply provenance_probed; [done|]. by exists p, u.
    + by apply afterProbe_sendFrom.
  - pose proof (prov_probing _ _ _ Hprov _ _ _ Hi) as Ho.
    change (provenance cfg sent
              (setCrashed (Some SliceOutOfRange)
                 (setProbed (probed s ++ [scheme p ++ u]) s))).
    assert (provenance cfg sent (setProbed (probed s ++ [scheme p ++ u]) s))
      as []; [|done].
    apply provenance_probed; [done|]. by exists p, u.
  - by apply provenance_setWorker.
  - assert (provenance cfg sent (setWorker p i Done s)) as []; [|done].
    by apply provenance_setWorker.
Qed.
End Provenance.

Lemma provenance_reachable U cfg lines s :
  reachable U cfg lines s → provenance cfg (feed U cfg lines) s.
Proof.
  revert s. apply rtc_ind_r.
  - split; simpl; try done.
    + intros p i u Hi. by apply lookup_replicate in Hi as [[=] _].
    + intros p i m rest Hi. by apply lookup_replicate in Hi as [[=] _].
    + by intros [|] url after.
    + by intros line ?%elem_of_nil.
  - intros s s' _ (_ & _ & Hact) IH.
    eapply provenance_action; [|done..]. apply feed_channels.
Qed.

Section Produced.
Variable U : Unicode.
Variable cfg : config.
Variable P : gostring → Prop.









End Produced.




(** X7.  Every call of [probeURL] is on a submission of the feeder: an
    [https://] URL on one sent on [httpsURLs], an [http://] URL on one
    sent on [httpURLs], or on one sent on [httpsURLs] whose [https://]
    URL was probed before. *)
Theorem probes_come_from_submissions U cfg lines s before url after :
  reachable U cfg lines s →
  probed s = before ++ url :: after →
  ∃ u,
    (url = "https://" ++ u ∧ (httpsURLs, u) ∈ feed U cfg lines)
    ∨ (url = "http://" ++ u
       ∧ ((httpURLs, u) ∈ feed U cfg lines
          ∨ ((httpsURLs, u) ∈ feed U cfg lines
             ∧ "https://" ++ u ∈ before))).
Proof.
  intros Hprov%provenance_reachable Heq.
  destruct (prov_probed _ _ _ Hprov before url after Heq)
    as ([] & u & -> & Ho); exists u; [by left | by right].
Qed.

Lemma example_run_answered :
  reachable noUnicode showAll ["example.com"] answered.
Proof.
  apply (rtc_l _ _ received).
  { split_and!; [reflexivity | discriminate |].
    apply (act_rendezvous _ _ _ httpsURLs "example.com"
             (setFeeder [] (init noUnicode showAll ["example.com"])));
      [reflexivity | by apply main_sends |].
    by apply (worker_receives _ HTTPSPool 0). }
  apply rtc_once. split_and!; [reflexivity | discriminate |].
  apply (act_probe noUnicode showAll received HTTPSPool 0 "example.com"
           (answering exampleResponse)
           {| success := true; status := 200; server := "nginx";
              title := "Example Domain" |}); reflexivity.
Qed.

Lemma example_run_printed :
  reachable noUnicode showAll ["example.com"] printedLine.
Proof.
  eapply rtc_r; [apply example_run_answered|].
  split_and!; [reflexivity | discriminate |].
  apply (act_rendezvous _ _ answered output exampleLine
           (setWorker HTTPSPool 0 (Sending (httpURLs, "example.com") [])
              answered)); [reflexivity | |].
  - by apply (worker_sends answered HTTPSPool 0 (output, exampleLine)
                [(httpURLs, "example.com")]).
  - by apply output_receives.
Qed.


Lemma probes_come_from_submissions_witness :
  ∃ u,
    ("https://example.com" = "https://" ++ u
     ∧ (httpsURLs, u) ∈ feed noUnicode showAll ["example.com"])
    ∨ ("https://example.com" = "http://" ++ u
       ∧ ((httpURLs, u) ∈ feed noUnicode showAll ["example.com"]
          ∨ ((httpsURLs, u) ∈ feed noUnicode showAll ["example.com"]
             ∧ "https://" ++ u ∈ @nil gostring))).
Proof.
  apply (probes_come_from_submissions noUnicode showAll ["example.com"]
           answered [] "https://example.com" []).
  - apply example_run_answered.
  - reflexivity.
Defined.

Lemma alive_pos (ws : list worker) i w :
  ws !! i = Some w → w ≠ Done → (1 ≤ alive ws)%nat.
Proof.
  intros Hi Hw. destruct (alive ws) eqn:Hz; [|lia].
  by destruct (Hw (alive_zero ws i w Hz Hi)).
Qed.

(** X8.  In every state of a run each pool has the workers it was
    started with, [max 0 (concurrency / 2)] of them, and its wait group
    counts those that have not called [Done]; a worker about to call
    [Done] finds the counter at one or more, so the counter never goes
    below zero. *)
Theorem waitgroup_counts_live_workers U cfg lines s p :
  reachable U cfg lines s →
  length (workers s p) = Z.to_nat (concurrency cfg ÷ 2)
  ∧ wg s p = alive (workers s p)
  ∧ ∀ i, workers s p !! i = Some Exiting → (1 ≤ wg s p)%nat.
Proof.
  intros Hinv%invariant_reachable. split_and!.
  - by rewrite (inv_size _ _ Hinv), poolSize_quot.
  - apply (inv_wg _ _ Hinv).
  - intros i Hi. rewrite (inv_wg _ _ Hinv). by eapply alive_pos.
Qed.

Lemma waitgroup_counts_live_workers_witness :
  length (workers answered HTTPSPool) = Z.to_nat (concurrency showAll ÷ 2)
  ∧ wg answered HTTPSPool = alive (workers answered HTTPSPool)
  ∧ ∀ i, workers answered HTTPSPool !! i = Some Exiting →
         (1 ≤ wg answered HTTPSPool)%nat.
Proof.
  apply (waitgroup_counts_live_workers noUnicode showAll ["example.com"]).
  apply example_run_answered.
Defined.

Lemma workers_close_in_order_witness :
  crashed answered ≠ Some SendOnClosedChannel
  ∧ (closed answered httpURLs = true →
     mainAt answered ≠ Feeding
     ∧ ∀ i w, workers answered HTTPSPool !! i = Some w → w = Done).
Proof.
  apply (workers_close_in_order noUnicode showAll ["example.com"]).
  - by vm_compute.
  - apply example_run_answered.
Defined.

(** * Further properties of the feeder *)

(** X10.  Every submission of the feeder is made of a line of the
    input: it is the lower-cased line, alone or followed by [":"] and a
    port, and it is sent on [httpsURLs] or on [httpURLs]. *)
Theorem submissions_extend_the_line U cfg lines ch u :
  (ch, u) ∈ feed U cfg lines →
  ch ≠ output
  ∧ ∃ line, line ∈ lines
            ∧ (u = ToLower U line ∨ ∃ port, u = ToLower U line ++ ":" ++ port).
Proof.
  intros Hin. split; [exact (feed_channels U cfg lines _ Hin)|].
  unfold feed in Hin. apply list_elem_of_In, in_concat in Hin.
  destruct Hin as (sends & (line & <- & Hline)%in_map_iff & Hin).
  exists line. split; [by apply list_elem_of_In|].
  apply list_elem_of_In in Hin. unfold feedLine in Hin.
  apply elem_of_app in Hin as [Hin|Hin].
  - destruct (skipDefault cfg); [by apply elem_of_nil in Hin|].
    apply list_elem_of_singleton in Hin as [= _ ->]. by left.
  - right. apply list_elem_of_In, in_concat in Hin.
    destruct Hin as (sends & (p & <- & _)%in_map_iff & Hin).
    unfold feedProbe, hostPort in Hin.
    assert (∀ ports : list gostring,
              In (ch, u) (map (λ port, (httpsURLs,
                                        ToLower U line ++ ":" ++ port)) ports) →
              ∃ port, u = ToLower U line ++ ":" ++ port) as Hports.
    { intros ports (port & [= _ <-] & _)%in_map_iff. by exists port. }
    repeat (case_bool_decide; [by eapply Hports|]).
    destruct (SplitN p ":" 2) as [|scheme [|port [|]]]; try done.
    case_bool_decide; destruct Hin as [[= _ <-]|[]]; by exists port.
Qed.

Lemma submissions_extend_the_line_witness :
  httpURLs ≠ output
  ∧ ∃ line, line ∈ [("Example.COM" : gostring)]
            ∧ ("example.com:81" = ToLower noUnicode line
               ∨ ∃ port, "example.com:81"
                         = ToLower noUnicode line ++ ":" ++ port).
Proof.
  apply (submissions_extend_the_line noUnicode (flags 20 ["http:81"] false)).
  vm_compute. apply list_elem_of_further, list_elem_of_here.
Defined.

Lemma parsedProbes_eq vals : parsedProbes vals = vals.
Proof.
  unfold parsedProbes.
  assert (∀ acc, foldl probeArgs_Set acc vals = acc ++ vals) as Hfold.
  { induction vals as [|v vals IH]; intros acc; simpl.
    - by rewrite app_nil_r.
    - unfold probeArgs_Set at 2. by rewrite IH, <- app_assoc. }
  apply Hfold.
Qed.

(** X11.  [Set] keeps every [-p] value, in the order of the command
    line, and the feeder follows that order: one more [-p v] at the end
    leaves the submissions of a line as they were and adds those of [v]
    after them. *)
Theorem probes_keep_flag_order U cfg vals v line :
  parsedProbes (vals ++ [v]) = probeArgs_Set (parsedProbes vals) v
  ∧ parsedProbes vals = vals
  ∧ feedLine U (withProbes cfg (parsedProbes (vals ++ [v]))) line
    = feedLine U (withProbes cfg (parsedProbes vals)) line
      ++ feedProbe U (ToLower U line) v.
Proof.
  rewrite !parsedProbes_eq. split_and!; [done..|].
  unfold feedLine. simpl. rewrite map_app, concat_app. simpl.
  by rewrite app_nil_r, app_assoc.
Qed.

(** X12.  The token [xlarge], [large] or [small] sends one submission
    for each port of its set, all on [httpsURLs], in the order in which
    the set is written in the feeder loop and without a repetition:
    seventy ports for [xlarge], fifteen for [large], eleven for
    [small]. *)
Theorem named_set_submissions U domain :
  let submit := map (λ port : gostring, (httpsURLs, domain ++ ":" ++ port)) in
  feedProbe U domain "xlarge"
  = submit
      ["81"; "300"; "591"; "593"; "832"; "981"; "1010"; "1311"; "2082";
       "2087"; "2095"; "2096"; "2480"; "3000"; "3128"; "3333"; "4243";
       "4567"; "4711"; "4712"; "4993"; "5000"; "5104"; "5108"; "5800";
       "6543"; "7000"; "7396"; "7474"; "8000"; "8001"; "8008"; "8014";
       "8042"; "8069"; "8080"; "8081"; "8088"; "8090"; "8091"; "8118";
       "8123"; "8172"; "8222"; "8243"; "8280"; "8281"; "8333"; "8443";
       "8500"; "8834"; "8880"; "8888"; "8983"; "9000"; "9043"; "9060";
       "9080"; "9090"; "9091"; "9200"; "9443"; "9800"; "9981"; "12443";
       "16080"; "18091"; "18092"; "20720"; "28017"]
  ∧ feedProbe U domain "large"
    = submit
        ["81"; "591"; "2082"; "2087"; "2095"; "2096"; "3000"; "8000";
         "8001"; "8008"; "8080"; "8083"; "8443"; "8834"; "8888"]
  ∧ feedProbe U domain "small"
    = submit
        ["7000"; "7001"; "8000"; "8001"; "8008"; "8080"; "8083"; "8443";
         "8834"; "8888"; "10000"]
  ∧ (∀ p, namedSet p →
          NoDup (feedProbe U domain p)
          ∧ Forall (λ m : send, m.1 = httpsURLs) (feedProbe U domain p)).
Proof.
  intros submit. split_and!; [reflexivity..|].
  intros p Hp.
  assert (∀ ports : list gostring, NoDup ports →
            NoDup (map (λ port, (httpsURLs, domain ++ ":" ++ port)) ports))
    as Hmap.
  { intros ports Hnd.
    assert (Inj (=) (=)
              (λ port : gostring, (httpsURLs, domain ++ ":" ++ port))) as Hinj.
    { intros x y [= Heq]. apply app_inv_head in Heq. by injection Heq. }
    by apply (NoDup_fmap_2 _). }
  assert (∀ ports : list gostring,
            Forall (λ m : send, m.1 = httpsURLs)
              (map (λ port, (httpsURLs, domain ++ ":" ++ port)) ports))
    as Hall.
  { intros ports. induction ports; by constructor. }
  destruct Hp as [-> | [-> | ->]].
  - assert (NoDup xlarge) by (apply (bool_decide_unpack _); by vm_compute).
    split; [by apply (Hmap xlarge) | apply (Hall xlarge)].
  - assert (NoDup large) by (apply (bool_decide_unpack _); by vm_compute).
    split; [by apply (Hmap large) | apply (Hall large)].
  - assert (NoDup small) by (apply (bool_decide_unpack _); by vm_compute).
    split; [by apply (Hmap small) | apply (Hall small)].
Qed.

Lemma named_set_submissions_witness :
  NoDup (feedProbe noUnicode "example.com" "small")
  ∧ Forall (λ m : send, m.1 = httpsURLs)
      (feedProbe noUnicode "example.com" "small").
Proof.
  apply (named_set_submissions noUnicode "example.com").
  right. right. reflexivity.
Defined.

(** * Further properties of the probe *)

Lemma length_trimLeft s : (length (trimLeft s) ≤ length s)%nat.
Proof.
  induction s as [|c s IH]; [done|]. simpl.
  destruct (asciiSpace c); simpl; lia.
Qed.

Lemma length_trimRight s : (length (trimRight s) ≤ length s)%nat.
Proof.
  induction s as [|c s IH]; [done|]. simpl.
  destruct (trimRight s); [destruct (asciiSpace c)|]; simpl in *; lia.
Qed.

Lemma length_squeeze s : (length (squeeze s) ≤ length s)%nat.
Proof.
  induction s as [|c s IH]; [done|].
  destruct (asciiSpace c) eqn:Hc.
  - destruct s as [|d s]; [simpl; rewrite Hc; simpl; lia|].
    rewrite squeeze_space by done.
    destruct (asciiSpace d); simpl length in *; lia.
  - rewrite squeeze_word by done. simpl. lia.
Qed.

Lemma length_collapse s : (length (collapse s) ≤ length s)%nat.
Proof.
  rewrite collapse_trimCollapse. unfold trimCollapse.
  pose proof (length_squeeze (trimRight (trimLeft s))).
  pose proof (length_trimRight (trimLeft s)).
  pose proof (length_trimLeft s). lia.
Qed.

(** Every field of a string occurs in it. *)
Lemma fieldsASCII_occurs s f : f ∈ fieldsASCII s → ∃ j, occursAt f s j.
Proof.
  revert f. induction s as [|c s IH]; intros f.
  { by intros ?%elem_of_nil. }
  destruct (asciiSpace c) eqn:Hc.
  - unfold fieldsASCII at 1. rewrite fieldsFrom_space by done.
    intros [j Hj]%IH. by exists (S j).
  - unfold fieldsASCII in *. simpl.
    pose proof (fieldsFrom_spec s _ _ (surjective_pairing _))
      as (_ & (r & Hs & _) & _).
    destruct (fieldsFrom s) as [w fs]. rewrite Hc. simpl in *.
    intros [->|Hf]%elem_of_cons.
    + exists O. unfold occursAt. simpl. rewrite Ascii.eqb_refl, Hs.
      apply HasPrefix_app. by exists r.
    + destruct (IH f) as [j Hj]; [|by exists (S j)].
      destruct w; [done | by apply list_elem_of_further].
Qed.

Lemma Join_spaces fs c :
  Forall goodField fs → c ∈ Join fs " " → asciiSpace c = true → c = " "%char.
Proof.
  intros Hfs.
  assert (Forall (λ c, asciiSpace c = true → c = " "%char) (Join fs " "))
    as Hall.
  { apply Join_Forall; [done|].
    eapply Forall_impl; [exact Hfs|]. intros f [_ Hf].
    eapply Forall_impl; [exact Hf|]. simpl. congruence. }
  intros Hc. by apply (proj1 (Forall_forall _ _) Hall).
Qed.

(** The text between two positions of a body, collapsed. *)
Lemma collapse_words body k e :
  ∃ fs,
    collapse (take e (drop k body)) = Join fs " "
    ∧ Forall (λ f, goodField f ∧ ∃ j, occursAt f body j) fs
    ∧ (∀ c, c ∈ collapse (take e (drop k body)) →
            asciiSpace c = true → c = " "%char)
    ∧ (length (collapse (take e (drop k body))) ≤ length body)%nat.
Proof.
  set (span := take e (drop k body)).
  pose proof (fieldsASCII_good span) as Hgood.
  exists (fieldsASCII span). split_and!; [done| | |].
  - apply Forall_forall. intros f Hf.
    pose proof (proj1 (Forall_forall _ _) Hgood f Hf) as Hfgood.
    split; [done|]. destruct Hfgood as [Hne _].
    apply fieldsASCII_occurs in Hf as [j Hj].
    apply occursAt_take in Hj as [Hj _]; [|done].
    apply occursAt_drop in Hj. by eexists.
  - intros c. by apply Join_spaces.
  - pose proof (length_collapse span) as Hlen. subst span.
    rewrite length_take, length_drop in Hlen. lia.
Qed.

(** X13.  On an ASCII body [extractTitle] does not panic, and the
    title is made of words of the body, in the case they have there,
    with one space between two of them: it holds no tab and no line
    break, neither starts nor ends with a space, and is not longer than
    the body. *)
Theorem title_is_one_line U body :
  isASCII body = true →
  ∃ t fs,
    extractTitle U body = Some t
    ∧ t = Join fs " "
    ∧ Forall (λ f, goodField f ∧ ∃ j, occursAt f body j) fs
    ∧ (∀ c, c ∈ t → asciiSpace c = true → c = " "%char)
    ∧ (length t ≤ length body)%nat.
Proof.
  intros Hbody. rewrite extractTitle_ascii by done.
  assert (∃ fs : list gostring,
            @nil ascii = Join fs " "
            ∧ Forall (λ f, goodField f ∧ ∃ j, occursAt f body j) fs
            ∧ (∀ c, c ∈ @nil ascii → asciiSpace c = true → c = " "%char)
            ∧ (length (@nil ascii) ≤ length body)%nat) as (fs0 & Hempty).
  { exists []. split_and!; [done | done | by intros c ?%elem_of_nil |].
    simpl. lia. }
  destruct (find "<title>" (map lowerByte body)) as [i|];
    [|by exists [], fs0].
  destruct (find "</title>" (drop (i + 7) (map lowerByte body))) as [e|];
    [|by exists [], fs0].
  destruct (collapse_words body (i + 7) e) as (fs & Hfs).
  by exists (collapse (take e (drop (i + 7) body))), fs.
Qed.

Lemma title_is_one_line_witness :
  ∃ t fs,
    extractTitle noUnicode (Body exampleResponse) = Some t
    ∧ t = Join fs " "
    ∧ Forall (λ f, goodField f
                   ∧ ∃ j, occursAt f (Body exampleResponse) j) fs
    ∧ (∀ c, c ∈ t → asciiSpace c = true → c = " "%char)
    ∧ (length t ≤ length (Body exampleResponse))%nat.
Proof. apply title_is_one_line. reflexivity. Defined.

Lemma readAllLimited_take resp n body :
  readAllLimited resp n = Some body → body = take n (Body resp).
Proof.
  unfold readAllLimited. destruct (Nat.leb_spec n (length (Body resp))).
  - by intros [= <-].
  - destruct (BodyFails resp); [done|]. intros [= <-].
    by rewrite take_ge by lia.
Qed.

(** X14.  [probeURL] looks at the first 4096 bytes of a body only: two
    responses with the same status and [Server] header whose bodies
    agree on their first 4096 bytes give the same result, whatever
    follows in the bodies and whether reading further would fail. *)
Theorem probeURL_reads_4096 U r1 r2 url method userAgent needBody :
  StatusCode r2 = StatusCode r1 →
  HeaderGet r2 "Server" = HeaderGet r1 "Server" →
  (4096 ≤ length (Body r1))%nat →
  take 4096 (Body r2) = take 4096 (Body r1) →
  probeURL U (answering r2) url method userAgent needBody
  = probeURL U (answering r1) url method userAgent needBody.
Proof.
  intros Hstatus Hserver Hlen Htake.
  assert (4096 ≤ length (Body r2))%nat as Hlen2.
  { apply (f_equal length) in Htake. rewrite !length_take in Htake. lia. }
  assert (readAllLimited r2 4096 = readAllLimited r1 4096) as Hread.
  { unfold readAllLimited. rewrite Htake.
    by rewrite !(proj2 (Nat.leb_le _ _)) by done. }
  unfold probeURL, answering. cbn [NewRequestOk Do negb].
  by rewrite Hstatus, Hserver, Hread.
Qed.

Lemma probeURL_reads_4096_witness :
  let page := "<title>Example Domain</title>" ++ replicate 4096 " "%char in
  let r1 := {| StatusCode := 200; HeaderGet := λ _, "nginx";
               Body := page; BodyFails := true |} in
  let r2 := {| StatusCode := 200; HeaderGet := λ _, "nginx";
               Body := page ++ "<title>Other</title>";
               BodyFails := false |} in
  probeURL noUnicode (answering r2) "https://example.com" "GET" "httprobe" true
  = probeURL noUnicode (answering r1) "https://example.com" "GET" "httprobe"
      true.
Proof.
  intros page r1 r2. apply probeURL_reads_4096.
  - reflexivity.
  - reflexivity.
  - subst r1 page. cbn [Body]. rewrite length_app, length_replicate. lia.
  - by vm_compute.
Defined.

(** X15.  A call of [probeURL] that returns gives a success exactly
    when the request could be built and the exchange gave a response,
    whatever its status.  The result then carries the status and the
    [Server] header of the response; its title is not empty only if the
    body was asked for, its first 4096 bytes could be read and
    [extractTitle] found that title in them, and it is empty when the
    read failed, the probe being a success all the same.  The call
    panics only after a response has come and the body was asked for
    and read, inside [extractTitle]. *)
Theorem probeURL_success U client url method userAgent needBody :
  (∀ r,
     probeURL U client url method userAgent needBody = Some r →
     (success r = true
      ↔ NewRequestOk client method url = true
        ∧ is_Some (Do client (probeRequest url method userAgent))))
  ∧ (∀ r resp,
       probeURL U client url method userAgent needBody = Some r →
       NewRequestOk client method url = true →
       Do client (probeRequest url method userAgent) = Some resp →
       status r = StatusCode resp ∧ server r = HeaderGet resp "Server"
       ∧ (title r ≠ "" →
          needBody = true
          ∧ readAllLimited resp 4096 = Some (take 4096 (Body resp))
          ∧ extractTitle U (take 4096 (Body resp)) = Some (title r))
       ∧ (readAllLimited resp 4096 = None →
          success r = true ∧ title r = ""))
  ∧ (probeURL U client url method userAgent needBody = None →
     needBody = true
     ∧ NewRequestOk client method url = true
     ∧ ∃ resp,
         Do client (probeRequest url method userAgent) = Some resp
         ∧ readAllLimited resp 4096 = Some (take 4096 (Body resp))
         ∧ extractTitle U (take 4096 (Body resp)) = None).
Proof.
  unfold probeURL, probeRequest.
  destruct (NewRequestOk client method url); simpl.
  2:{ split_and!; [|done..]. intros r [= <-]. simpl.
      split; [done | by intros []]. }
  destruct (Do client _) as [resp|]; simpl.
  2:{ split_and!; [|done..]. intros r [= <-]. simpl.
      split; [done | by intros [_ []]]. }
  assert (∀ t, success {| success := true; status := StatusCode resp;
                          server := HeaderGet resp "Server"; title := t |}
               = true
             ↔ true = true ∧ is_Some (Some resp)) as Hiff.
  { intros t. simpl. split; [by eauto | done]. }
  destruct needBody.
  - destruct (readAllLimited resp 4096) as [body|] eqn:Hread.
    + pose proof (readAllLimited_take _ _ _ Hread) as ->.
      destruct (extractTitle U (take 4096 (Body resp))) as [t|] eqn:Ht;
        simpl.
      * split_and!; [| |done].
        -- intros r [= <-]. apply Hiff.
        -- intros r resp' [= <-] _ [= <-]. simpl. by rewrite Hread, Ht.
      * split_and!; [done..|]. intros _. split_and!; [done..|].
        by exists resp.
    + split_and!; [| |done].
      * intros r [= <-]. apply Hiff.
      * intros r resp' [= <-] _ [= <-]. by rewrite Hread.
  - split_and!; [| |done].
    + intros r [= <-]. apply Hiff.
    + intros r resp' [= <-] _ [= <-]. simpl. by split_and!.
Qed.

Lemma probeURL_success_witness :
  let r := {| success := true; status := 200; server := "nginx";
              title := "Example Domain" |} in
  (success r = true
   ↔ NewRequestOk (answering exampleResponse) "GET" "https://example.com"
     = true
     ∧ is_Some (Do (answering exampleResponse)
                  (probeRequest "https://example.com" "GET" "httprobe")))
  ∧ status r = StatusCode exampleResponse
  ∧ server r = HeaderGet exampleResponse "Server"
  ∧ (title r ≠ "" →
     true = true
     ∧ readAllLimited exampleResponse 4096
       = Some (take 4096 (Body exampleResponse))
     ∧ extractTitle noUnicode (take 4096 (Body exampleResponse))
       = Some (title r))
  ∧ (readAllLimited exampleResponse 4096 = None →
     success r = true ∧ title r = "").
Proof.
  intros r.
  destruct (probeURL_success noUnicode (answering exampleResponse)
              "https://example.com" "GET" "httprobe" true)
    as (Hsuccess & Hfields & _).
  split.
  - apply (Hsuccess r). reflexivity.
  - apply (Hfields r exampleResponse); reflexivity.
Defined.

(** X16.  [probeURL] does not panic when the body is not asked for, nor
    when the bytes it reads from the body are ASCII. *)
Theorem probeURL_no_panic U client url method userAgent needBody :
  needBody = false
  ∨ (∀ resp, Do client (probeRequest url method userAgent) = Some resp →
             isASCII (take 4096 (Body resp)) = true) →
  ∃ r, probeURL U client url method userAgent needBody = Some r.
Proof.
  intros Hsafe. unfold probeURL, probeRequest in *.
  destruct (NewRequestOk client method url); simpl; [|by eexists].
  destruct (Do client _) as [resp|]; simpl; [|by eexists].
  destruct needBody; [|by eexists].
  destruct Hsafe as [[=]|Hascii].
  destruct (readAllLimited resp 4096) as [body|] eqn:Hread; [|by eexists].
  apply readAllLimited_take in Hread as ->.
  rewrite extractTitle_ascii by auto. simpl. by eexists.
Qed.

Lemma probeURL_no_panic_witness :
  ∃ r, probeURL noUnicode (answering exampleResponse) "https://example.com"
         "GET" "httprobe" true = Some r.
Proof.
  apply probeURL_no_panic. right. intros resp [= <-]. reflexivity.
Defined.

(** * Further properties: counting the probes *)

Section Counting.
Variable U : Unicode.
Variable cfg : config.

Lemma total_setWorker (f : pool → worker → nat) s p i w w' :
  workers s p !! i = Some w →
  (total f (setWorker p i w' s) + f p w = total f s + f p w')%nat.
Proof.
  intros Hi. unfold total, setWorker, setWorkers. cbn [workers].
  assert (∀ ws : list worker, ws !! i = Some w →
            (sum_list (map (f p) (<[i:=w']> ws)) + f p w
             = sum_list (map (f p) ws) + f p w')%nat) as Hsum.
  { intros ws. clear Hi. revert i. induction ws as [|w0 ws IH]; intros i; [done|].
    destruct i as [|i]; simpl.
    - intros [= ->]. unfold id in *. lia.
    - intros Hi. specialize (IH i Hi). unfold id in *. lia. }
  specialize (Hsum _ Hi).
  destruct p; rewrite fn_lookup_insert, fn_lookup_insert_ne by done; lia.
Qed.

Lemma total_replicate (f : pool → worker → nat) s n :
  (∀ p, workers s p = replicate n Receive) →
  (∀ p, f p Receive = O) → total f s = O.
Proof.
  intros Hws Hf. unfold total. rewrite !Hws.
  assert (∀ p, sum_list (map (f p) (replicate n Receive)) = O) as Hz.
  { intros p. clear Hws. induction n as [|n IH]; [done|]. simpl.
    by rewrite IH, Hf. }
  by rewrite !Hz.
Qed.

Lemma probesDue_continue p todo :
  probesDue p (continue todo) = sum_list (map probesOf todo).
Proof. by destruct todo. Qed.

Lemma linesDue_continue p todo :
  linesDue p (continue todo) = sum_list (map linesOf todo).
Proof. by destruct todo. Qed.

Lemma counted_action n sent s s' :
  invariant n s → crashed s = None →
  counted sent s → action U cfg s s' →
  counted sent s'
  ∨ (crashed s' = Some SliceOutOfRange
     ∧ length (probed s') ≤ sum_list (map probesOf sent)
     ∧ length (printed s') ≤ length (probed s'))%nat.
Proof.
  unfold counted. intros Hinv Hlive [Hprobes Hlines] Hact. destruct Hact as
    [s ch v s1 s2 Hopen Hs Hr | s ch v s1 Hclosed Hs
     | s p i u client result Hi Hprobe | s p i u client Hi Hprobe
     | s p i Hi Hc | s p i Hi | s Hwg Hc | s Hwg Hc | s Hc Hdone
     | s Hmain Hf | s Hmain Hdone ];
    try (left; split; assumption).
  - left.
    assert ((length (probed s1) + sum_list (map probesOf (feeder s1))
             + total probesDue s1 + probesOf (ch, v)
             = length (probed s) + sum_list (map probesOf (feeder s))
               + total probesDue s)%nat
            ∧ (length (printed s1) + total linesDue s1 + linesOf (ch, v)
               = length (printed s) + total linesDue s)%nat
            ∧ probed s1 = probed s) as (Hp1 & Hl1 & Heq).
    { inversion Hs as [s0 m rest Hmain Hf | s0 p i m rest Hi]; subst.
      - assert (linesOf (ch, v) = O) as ->.
        { pose proof (inv_feeder _ _ Hinv (ch, v)) as Hout.
          rewrite Hf in Hout. specialize (Hout (list_elem_of_here _ _)).
          by destruct ch. }
        change (total probesDue (setFeeder rest s)) with (total probesDue s).
        change (total linesDue (setFeeder rest s)) with (total linesDue s).
        change (feeder (setFeeder rest s)) with rest.
        change (probed (setFeeder rest s)) with (probed s).
        change (printed (setFeeder rest s)) with (printed s).
        rewrite Hf. cbn [map sum_list sum_list_with]. unfold id.
        split_and!; [lia | lia | done].
      - pose proof (total_setWorker probesDue s p i _ (continue rest) Hi) as H1.
        pose proof (total_setWorker linesDue s p i _ (continue rest) Hi) as H2.
        rewrite probesDue_continue in H1. rewrite linesDue_continue in H2.
        cbn [probesDue linesDue map sum_list sum_list_with] in H1, H2.
        unfold id in H1, H2.
        change (feeder (setWorker p i (continue rest) s)) with (feeder s).
        change (probed (setWorker p i (continue rest) s)) with (probed s).
        change (printed (setWorker p i (continue rest) s)) with (printed s).
        split_and!; [lia | lia | done]. }
    assert (length (probed s1) = length (probed s)) as Hlen by by rewrite Heq.
    clear Heq. destruct Hr as [s1 p i u Hi | s1 o Hdone].
    + pose proof (total_setWorker probesDue s1 p i _ (Probing u) Hi) as H1.
      pose proof (total_setWorker linesDue s1 p i _ (Probing u) Hi) as H2.
      assert (probesOf (input p, u) = probesDue p (Probing u)) as Hpo
        by by destruct p.
      assert (linesOf (input p, u) = O) as Hlo by by destruct p.
      cbn [probesDue linesDue] in H1, H2.
      change (feeder (setWorker p i (Probing u) s1)) with (feeder s1).
      change (probed (setWorker p i (Probing u) s1)) with (probed s1).
      change (printed (setWorker p i (Probing u) s1)) with (printed s1).
      cbn [probesDue] in Hpo. split; lia.
    + change (total probesDue (setPrinted (printed s1 ++ [o]) s1))
        with (total probesDue s1).
      change (total linesDue (setPrinted (printed s1 ++ [o]) s1))
        with (total linesDue s1).
      change (feeder (setPrinted (printed s1 ++ [o]) s1)) with (feeder s1).
      change (probed (setPrinted (printed s1 ++ [o]) s1)) with (probed s1).
      change (printed (setPrinted (printed s1 ++ [o]) s1))
        with (printed s1 ++ [o]).
      rewrite length_app.
      change (probesOf (output, o)) with O in Hp1.
      change (linesOf (output, o)) with 1%nat in Hl1.
      change (length [o]) with 1%nat. split; lia.
  - left.
    pose proof (total_setWorker probesDue s p i _
                  (continue (afterProbe cfg p u result)) Hi) as H1.
    pose proof (total_setWorker linesDue s p i _
                  (continue (afterProbe cfg p u result)) Hi) as H2.
    rewrite probesDue_continue in H1. rewrite linesDue_continue in H2.
    assert (sum_list (map probesOf (afterProbe cfg p u result)) + 1
            ≤ probesDue p (Probing u)
            ∧ sum_list (map linesOf (afterProbe cfg p u result)) ≤ 1)%nat
      as [Hp Hl].
    { unfold afterProbe.
      destruct p, (success result), (preferHTTPS cfg); simpl; unfold id;
        unfold probesOf, linesOf; simpl; lia. }
    cbn [linesDue] in H2.
    set (s1 := setWorker p i (continue (afterProbe cfg p u result)) s) in *.
    change (total probesDue (setProbed (probed s ++ [scheme p ++ u]) s1))
      with (total probesDue s1).
    change (total linesDue (setProbed (probed s ++ [scheme p ++ u]) s1))
      with (total linesDue s1).
    change (feeder (setProbed (probed s ++ [scheme p ++ u]) s1))
      with (feeder s).
    change (probed (setProbed (probed s ++ [scheme p ++ u]) s1))
      with (probed s ++ [scheme p ++ u]).
    change (printed (setProbed (probed s ++ [scheme p ++ u]) s1))
      with (printed s).
    rewrite length_app. change (length [scheme p ++ u]) with 1%nat.
    split; lia.
  - right. split; [done|].
    pose proof (total_setWorker probesDue s p i _ Done Hi) as H1.
    assert (1 ≤ probesDue p (Probing u))%nat by (destruct p; simpl; lia).
    change (probesDue p Done) with O in H1.
    change (probed (setCrashed (Some SliceOutOfRange)
                      (setProbed (probed s ++ [scheme p ++ u]) s)))
      with (probed s ++ [scheme p ++ u]).
    change (printed (setCrashed (Some SliceOutOfRange)
                       (setProbed (probed s ++ [scheme p ++ u]) s)))
      with (printed s).
    rewrite length_app. change (length [scheme p ++ u]) with 1%nat.
    split; lia.
  - left.
    pose proof (total_setWorker probesDue s p i _ Exiting Hi) as H1.
    pose proof (total_setWorker linesDue s p i _ Exiting Hi) as H2.
    cbn [probesDue linesDue] in H1, H2.
    change (feeder (setWorker p i Exiting s)) with (feeder s).
    change (probed (setWorker p i Exiting s)) with (probed s).
    change (printed (setWorker p i Exiting s)) with (printed s).
    split; lia.
  - left.
    pose proof (total_setWorker probesDue s p i _ Done Hi) as H1.
    pose proof (total_setWorker linesDue s p i _ Done Hi) as H2.
    cbn [probesDue linesDue] in H1, H2.
    set (v := <[p:=Init.Nat.pred (wg s p)]> (wg s)).
    change (total probesDue (setWg v (setWorker p i Done s)))
      with (total probesDue (setWorker p i Done s)).
    change (total linesDue (setWg v (setWorker p i Done s)))
      with (total linesDue (setWorker p i Done s)).
    change (feeder (setWg v (setWorker p i Done s))) with (feeder s).
    change (probed (setWg v (setWorker p i Done s))) with (probed s).
    change (printed (setWg v (setWorker p i Done s))) with (printed s).
    split; lia.
Qed.
End Counting.

Lemma probesOf_sum (l : list send) :
  sum_list (map probesOf l)
  = (2 * length (filter (λ m, m.1 = httpsURLs) l)
     + length (filter (λ m, m.1 = httpURLs) l))%nat.
Proof.
  induction l as [|[ch v] l IH]; [done|].
  cbn [map sum_list sum_list_with]. rewrite !filter_cons, IH. unfold id.
  destruct ch; unfold probesOf; cbn [fst];
    repeat first [rewrite decide_True by done | rewrite decide_False by done];
    cbn [length]; unfold send in *; lia.
Qed.

Section CountingAt.
Variable U : Unicode.
Variable cfg : config.
Variable q : pool.
Variable u0 : gostring.

Lemma scheme_inj p u : scheme p ++ u = scheme q ++ u0 ↔ p = q ∧ u = u0.
Proof.
  split; [|by intros [-> ->]].
  destruct p, q; simpl; intros [= ?]; by subst.
Qed.

Lemma probedAt_snoc urls p u :
  probedAt q u0 (urls ++ [scheme p ++ u])
  = (probedAt q u0 urls
     + if bool_decide (p = q ∧ u = u0) then 1 else 0)%nat.
Proof.
  unfold probedAt. rewrite filter_app, length_app. f_equal.
  rewrite filter_cons, filter_nil. case_bool_decide as Hpu.
  - by rewrite decide_True by by apply scheme_inj.
  - rewrite decide_False; [done|]. by intros ?%scheme_inj.
Qed.

Lemma probesDueAt_continue p todo :
  probesDueAt q u0 p (continue todo)
  = sum_list (map (probesOfAt q u0) todo).
Proof. by destruct todo. Qed.

Lemma afterProbe_probesAt p u result :
  ((if bool_decide (p = q ∧ u = u0) then 1 else 0)
   + sum_list (map (probesOfAt q u0) (afterProbe cfg p u result))
   ≤ probesOfAt q u0 (input p, u))%nat.
Proof.
  assert ((if bool_decide (p = q ∧ u = u0) then 1 else 0)
          ≤ if bool_decide (u = u0) then 1 else 0)%nat as Hle.
  { destruct (decide (u = u0)) as [->|Hne].
    - rewrite (bool_decide_true (u0 = u0)) by done.
      destruct (bool_decide _); lia.
    - rewrite (bool_decide_false (p = q ∧ u = u0)); [lia|]. by intros [_ ?]. }
  assert (p ≠ q →
          ((if bool_decide (p = q ∧ u = u0) then 1 else 0) = 0)%nat)
    as Hother.
  { intros Hne. rewrite bool_decide_false; [done|]. by intros [? _]. }
  unfold afterProbe, probesOfAt.
  destruct p, q, (success result), (preferHTTPS cfg);
    cbn [input fst snd map sum_list sum_list_with]; unfold id;
    try rewrite Hother by done; lia.
Qed.

Lemma countedAt_action sent s s' :
  countedAt q u0 sent s → action U cfg s s' →
  countedAt q u0 sent s'
  ∨ (crashed s' = Some SliceOutOfRange
     ∧ probedAt q u0 (probed s')
       ≤ sum_list (map (probesOfAt q u0) sent))%nat.
Proof.
  unfold countedAt. intros Hc Hact. destruct Hact as
    [s ch v s1 s2 Hopen Hs Hr | s ch v s1 Hclosed Hs
     | s p i u client result Hi Hprobe | s p i u client Hi Hprobe
     | s p i Hi Hc' | s p i Hi | s Hwg Hc' | s Hwg Hc' | s Hc' Hdone
     | s Hmain Hf | s Hmain Hdone ];
    try (left; exact Hc).
  - left.
    assert ((probedAt q u0 (probed s1)
             + sum_list (map (probesOfAt q u0) (feeder s1))
             + total (probesDueAt q u0) s1 + probesOfAt q u0 (ch, v)
             = probedAt q u0 (probed s)
               + sum_list (map (probesOfAt q u0) (feeder s))
               + total (probesDueAt q u0) s)%nat) as H1.
    { inversion Hs as [s0 m rest Hmain Hf | s0 p i m rest Hi]; subst.
      - change (total (probesDueAt q u0) (setFeeder rest s))
          with (total (probesDueAt q u0) s).
        change (feeder (setFeeder rest s)) with rest.
        change (probed (setFeeder rest s)) with (probed s).
        rewrite Hf. cbn [map sum_list sum_list_with]. unfold id. lia.
      - pose proof (total_setWorker (probesDueAt q u0) s p i _
                      (continue rest) Hi) as H1.
        rewrite probesDueAt_continue in H1.
        cbn [probesDueAt map sum_list sum_list_with] in H1.
        unfold id in H1.
        change (feeder (setWorker p i (continue rest) s)) with (feeder s).
        change (probed (setWorker p i (continue rest) s)) with (probed s).
        lia. }
    destruct Hr as [s1 p i u Hi | s1 o Hdone].
    + pose proof (total_setWorker (probesDueAt q u0) s1 p i _
                    (Probing u) Hi) as H2.
      cbn [probesDueAt] in H2.
      change (feeder (setWorker p i (Probing u) s1)) with (feeder s1).
      change (probed (setWorker p i (Probing u) s1)) with (probed s1).
      lia.
    + change (total (probesDueAt q u0) (setPrinted (printed s1 ++ [o]) s1))
        with (total (probesDueAt q u0) s1).
      change (feeder (setPrinted (printed s1 ++ [o]) s1)) with (feeder s1).
      change (probed (setPrinted (printed s1 ++ [o]) s1)) with (probed s1).
      change (probesOfAt q u0 (output, o)) with O in H1. lia.
  - left.
    pose proof (total_setWorker (probesDueAt q u0) s p i _
                  (continue (afterProbe cfg p u result)) Hi) as H1.
    rewrite probesDueAt_continue in H1. cbn [probesDueAt] in H1.
    pose proof (afterProbe_probesAt p u result) as H2.
    set (s1 := setWorker p i (continue (afterProbe cfg p u result)) s) in *.
    change (total (probesDueAt q u0)
              (setProbed (probed s ++ [scheme p ++ u]) s1))
      with (total (probesDueAt q u0) s1).
    change (feeder (setProbed (probed s ++ [scheme p ++ u]) s1))
      with (feeder s).
    change (probed (setProbed (probed s ++ [scheme p ++ u]) s1))
      with (probed s ++ [scheme p ++ u]).
    rewrite probedAt_snoc.
    repeat case_bool_decide; try tauto; unfold send in *; lia.
  - right. split; [done|].
    pose proof (total_setWorker (probesDueAt q u0) s p i _ Done Hi) as H1.
    cbn [probesDueAt] in H1.
    pose proof (afterProbe_probesAt p u zeroResult) as H2.
    change (probed (setCrashed (Some SliceOutOfRange)
                      (setProbed (probed s ++ [scheme p ++ u]) s)))
      with (probed s ++ [scheme p ++ u]).
    rewrite probedAt_snoc.
    repeat case_bool_decide; try tauto; unfold send in *; lia.
  - left.
    pose proof (total_setWorker (probesDueAt q u0) s p i _ Exiting Hi) as H1.
    cbn [probesDueAt] in H1.
    change (feeder (setWorker p i Exiting s)) with (feeder s).
    change (probed (setWorker p i Exiting s)) with (probed s).
    lia.
  - left.
    pose proof (total_setWorker (probesDueAt q u0) s p i _ Done Hi) as H1.
    cbn [probesDueAt] in H1.
    set (v := <[p:=Init.Nat.pred (wg s p)]> (wg s)).
    change (total (probesDueAt q u0) (setWg v (setWorker p i Done s)))
      with (total (probesDueAt q u0) (setWorker p i Done s)).
    change (feeder (setWg v (setWorker p i Done s))) with (feeder s).
    change (probed (setWg v (setWorker p i Done s))) with (probed s).
    lia.
Qed.

Lemma countedAt_reachable lines s :
  reachable U cfg lines s →
  (probedAt q u0 (probed s)
   ≤ sum_list (map (probesOfAt q u0) (feed U cfg lines)))%nat.
Proof.
  intros Hreach.
  assert (countedAt q u0 (feed U cfg lines) s
          ∨ (crashed s ≠ None
             ∧ probedAt q u0 (probed s)
               ≤ sum_list (map (probesOfAt q u0) (feed U cfg lines)))%nat)
    as Hcount.
  { revert s Hreach. apply rtc_ind_r.
    - left. unfold countedAt.
      rewrite (total_replicate _ _ (poolSize cfg)) by done. simpl. lia.
    - intros s s' Hreach (Hlive & _ & Hact) [Hc|[Hdead _]]; [|done].
      destruct (countedAt_action _ s s' Hc Hact) as [?|(Hcr & ?)];
        [by left|].
      right. split; [by rewrite Hcr | done]. }
  destruct Hcount as [Hc|(_ & Hc)]; [|done].
  unfold countedAt in Hc. lia.
Qed.

Lemma probesOfAt_sum (l : list send) :
  sum_list (map (probesOfAt q u0) l)
  = (length (filter (λ m, m = (httpsURLs, u0)) l)
     + match q with
       | HTTPSPool => 0
       | HTTPPool => length (filter (λ m, m = (httpURLs, u0)) l)
       end)%nat.
Proof.
  induction l as [|[ch v] l IH]; [by destruct q|].
  cbn [map sum_list sum_list_with]. rewrite !filter_cons, IH. unfold id.
  unfold probesOfAt. cbn [fst snd].
  destruct ch, q; repeat case_bool_decide; subst;
    repeat first [rewrite decide_True by done
                 | rewrite decide_False by congruence];
    cbn [length]; unfold send in *; lia.
Qed.
End CountingAt.

(** X17.  No URL is probed more often than the feeder submitted it: for
    every [u], [probeURL] is called on [https://u] as many times as the
    feeder sent [u] on [httpsURLs] at most, and on [http://u] as many
    times as the feeder sent [u] on either channel at most.  In all,
    the calls of [probeURL] never exceed twice the number of submissions
    on [httpsURLs] plus the number of those on [httpURLs], and the
    printed lines never exceed the calls. *)
Theorem probes_and_lines_are_counted U cfg lines s :
  reachable U cfg lines s →
  (∀ u,
     (length (filter (λ url, url = "https://" ++ u) (probed s))
      ≤ length (filter (λ m, m = (httpsURLs, u)) (feed U cfg lines)))%nat
     ∧ (length (filter (λ url, url = "http://" ++ u) (probed s))
        ≤ length (filter (λ m, m = (httpsURLs, u)) (feed U cfg lines))
          + length (filter (λ m, m = (httpURLs, u)) (feed U cfg lines)))%nat)
  ∧ (length (printed s) ≤ length (probed s))%nat
  ∧ (length (probed s)
     ≤ 2 * length (filter (λ m, m.1 = httpsURLs) (feed U cfg lines))
       + length (filter (λ m, m.1 = httpURLs) (feed U cfg lines)))%nat.
Proof.
  intros Hreach. split.
  { intros u.
    pose proof (countedAt_reachable U cfg HTTPSPool u lines s Hreach) as H1.
    pose proof (countedAt_reachable U cfg HTTPPool u lines s Hreach) as H2.
    rewrite probesOfAt_sum in H1, H2. rewrite Nat.add_0_r in H1.
    split; [exact H1 | exact H2]. }
  rewrite <- probesOf_sum.
  assert (counted (feed U cfg lines) s
          ∨ (crashed s ≠ None
             ∧ length (probed s) ≤ sum_list (map probesOf (feed U cfg lines))
             ∧ length (printed s) ≤ length (probed s))%nat) as Hcount.
  { revert s Hreach. apply rtc_ind_r.
    - left. unfold counted.
      rewrite !(total_replicate _ _ (poolSize cfg)) by done. simpl. lia.
    - intros s s' Hreach (Hlive & _ & Hact) [Hc|[Hdead _]]; [|done].
      apply invariant_reachable in Hreach.
      destruct (counted_action U cfg _ _ s s' Hreach Hlive Hc Hact)
        as [?|(Hcr & ? & ?)]; [by left|].
      right. split; [by rewrite Hcr | done]. }
  destruct Hcount as [[Hp Hl]|(_ & Hp & Hl)]; lia.
Qed.

Lemma probes_and_lines_are_counted_witness :
  (∀ u,
     (length (filter (λ url, url = "https://" ++ u) (probed printedLine))
      ≤ length (filter (λ m, m = (httpsURLs, u))
                  (feed noUnicode showAll ["example.com"])))%nat
     ∧ (length (filter (λ url, url = "http://" ++ u) (probed printedLine))
        ≤ length (filter (λ m, m = (httpsURLs, u))
                    (feed noUnicode showAll ["example.com"]))
          + length (filter (λ m, m = (httpURLs, u))
                      (feed noUnicode showAll ["example.com"])))%nat)
  ∧ (length (printed printedLine) ≤ length (probed printedLine))%nat
  ∧ (length (probed printedLine)
     ≤ 2 * length (filter (λ m, m.1 = httpsURLs)
                     (feed noUnicode showAll ["example.com"]))
       + length (filter (λ m, m.1 = httpURLs)
                   (feed noUnicode showAll ["example.com"])))%nat.
Proof.
  apply probes_and_lines_are_counted. apply example_run_printed.
Defined.

(** * Further properties of the flags *)

Lemma find_char_first (c : ascii) a x :
  c ∉ a → find [c] (a ++ c :: x) = Some (length a).
Proof.
  induction a as [|d a IH]; simpl.
  - rewrite Ascii.eqb_refl. intros _. reflexivity.
  - intros [Hne Ha]%not_elem_of_cons.
    destruct (Ascii.eqb_spec c d) as [->|_]; [done|].
    by rewrite IH.
Qed.

(** X18.  [String] can be read back: when the list is not empty and no
    value holds a comma, splitting the string at the commas into as
    many pieces as there are values gives the values. *)
Theorem probeArgs_String_splits (p : probeArgs) :
  p ≠ [] →
  Forall (λ v, ","%char ∉ v) p →
  SplitN (probeArgs_String p) "," (length p) = p.
Proof.
  unfold probeArgs_String. destruct p as [|a p]; [done|]. intros _.
  simpl length. cbn [SplitN]. revert a.
  induction p as [|b p IH]; intros a Hall; [done|].
  apply Forall_cons in Hall as [Ha Hall].
  change (Join (a :: b :: p) ",") with (a ++ ","%char :: Join (b :: p) ",").
  simpl length. cbn [splitLoop]. rewrite find_char_first by done.
  rewrite take_app_length.
  replace (length a + length ("," : gostring))%nat with (S (length a))
    by (simpl; lia).
  rewrite (cons_middle ","%char a), app_assoc.
  rewrite drop_app_length' by (rewrite length_app; simpl; lia).
  f_equal. by apply IH.
Qed.

Lemma probeArgs_String_splits_witness :
  SplitN (probeArgs_String ["https:8443"; "small"; "http:81"]) ","
    (length (["https:8443"; "small"; "http:81"] : probeArgs))
  = ["https:8443"; "small"; "http:81"].
Proof.
  apply probeArgs_String_splits; [discriminate|].
  repeat constructor; rewrite list_elem_of_In; simpl; intuition discriminate.
Defined.

Lemma wrap_in_range bits z :
  0 < bits →
  - 2 ^ (bits - 1) ≤ z < 2 ^ (bits - 1) →
  wrap bits z = z.
Proof.
  intros Hbits Hz. unfold wrap.
  assert (2 ^ bits = 2 * 2 ^ (bits - 1)) as Hpow.
  { rewrite <- Z.pow_succ_r by lia. f_equal. lia. }
  rewrite Z.mod_small by lia. lia.
Qed.

(** X19.  The timeout in milliseconds becomes the same time in
    nanoseconds as long as the product fits the [int] of the platform:
    up to 9223372036854 ms where [int] has 64 bits, where a larger
    value, up to twice that, gives a negative duration; and up to
    2147 ms only where [int] has 32 bits, where the default of 10000 ms
    becomes 1410065408 ns. *)
Theorem timeout_fits_int :
  (∀ bits to,
     0 < bits →
     - 2 ^ (bits - 1) ≤ to * 1000000 < 2 ^ (bits - 1) →
     timeoutNanoseconds bits to = to * 1000000)
  ∧ (∀ to, - 9223372036854 ≤ to ≤ 9223372036854 →
           timeoutNanoseconds 64 to = to * 1000000)
  ∧ (∀ to, 9223372036854 < to ≤ 18446744073709 →
           timeoutNanoseconds 64 to < 0)
  ∧ (∀ to, - 2147 ≤ to ≤ 2147 → timeoutNanoseconds 32 to = to * 1000000)
  ∧ timeoutNanoseconds 32 10000 = 1410065408.
Proof.
  split_and!.
  - intros bits to Hbits Hto. by apply wrap_in_range.
  - intros to Hto. apply wrap_in_range; [done|].
    change (2 ^ (64 - 1)) with 9223372036854775808. lia.
  - intros to Hto. unfold timeoutNanoseconds, wrap.
    change (2 ^ (64 - 1)) with 9223372036854775808.
    change (2 ^ 64) with 18446744073709551616.
    replace (to * 1000000 + 9223372036854775808)
      with (to * 1000000 - 9223372036854775808 + 1 * 18446744073709551616)
      by lia.
    rewrite Z_mod_plus_full, Z.mod_small by lia. lia.
  - intros to Hto. apply wrap_in_range; [done|].
    change (2 ^ (32 - 1)) with 2147483648. lia.
  - reflexivity.
Qed.

Lemma timeout_fits_int_witness :
  timeoutNanoseconds 64 10000 = 10000 * 1000000.
Proof.
  apply (proj1 (proj2 timeout_fits_int)). lia.
Defined.
